(** * A Rocq model of onehotkeyboard ([src/ee23b137.py])

    Shallow embedding of the keyboard-layout parser ([xmlParser]) and of the
    heat-map painter ([Painter]).

    Numbers: Python floats are modelled as exact rationals [Q] wherever the
    code only adds, multiplies, divides and compares them (key positions,
    adjusted positions, bounding extents, ring radii), and as reals [R] where
    the code applies [sqrt], [cos] or [sin] (sample points, distances, the
    density grid size).  Python dicts are association lists that keep the
    insertion order, as Python 3 dicts do.  Exceptions are the [Err] branch of
    a small error monad. *)

From Stdlib Require Import String Ascii List Bool Arith Lia ZArith QArith.
From Stdlib Require Import Reals Qreals Lra.
From Stdlib Require Lqa.
From Stdlib Require Import Sorting.Sorted Sorting.Permutation.
Import ListNotations.
Open Scope string_scope.

(* ------------------------------------------------------------------ *)
(** ** Error monad *)

Inductive result (A E : Type) : Type :=
| Ok : A -> result A E
| Err : E -> result A E.
Arguments Ok {A E} _.
Arguments Err {A E} _.

Definition bind {A B E} (m : result A E) (k : A -> result B E) : result B E :=
  match m with
  | Ok a => k a
  | Err e => Err e
  end.

Notation "'let*' x ':=' m 'in' k" := (bind m (fun x => k))
  (at level 200, x name, m at level 100, k at level 200).

Definition is_ok {A E} (m : result A E) : bool :=
  match m with Ok _ => true | Err _ => false end.

Definition is_none {A} (o : option A) : bool :=
  match o with None => true | Some _ => false end.

(* ------------------------------------------------------------------ *)
(** ** Python strings *)

(** [str.lower] on ASCII text. *)
Definition lower_ascii (a : ascii) : ascii :=
  let n := nat_of_ascii a in
  if ((65 <=? n) && (n <=? 90))%nat then ascii_of_nat (n + 32)%nat else a.

Fixpoint py_lower (s : string) : string :=
  match s with
  | EmptyString => EmptyString
  | String a t => String (lower_ascii a) (py_lower t)
  end.

(** [t in s] for two strings: substring test. *)
Fixpoint str_contains (s t : string) : bool :=
  if String.prefix t s then true
  else match s with
       | EmptyString => false
       | String _ s' => str_contains s' t
       end.

(** [x in lst] for a list of strings. *)
Definition str_in (x : string) (l : list string) : bool :=
  existsb (String.eqb x) l.

(** A one-character string. *)
Definition chr (n : nat) : string := String (ascii_of_nat n) EmptyString.

(** Iterating over a Python string yields its one-character strings. *)
Fixpoint py_chars (s : string) : list string :=
  match s with
  | EmptyString => []
  | String a t => String a EmptyString :: py_chars t
  end.

(** [string.ascii_uppercase]. *)
Definition ascii_uppercase : string := "ABCDEFGHIJKLMNOPQRSTUVWXYZ".

(** [string.printable]: digits, letters, punctuation, whitespace. *)
Definition printable : string :=
  "0123456789abcdefghijklmnopqrstuvwxyz" ++ ascii_uppercase ++
  "!" ++ chr 34 ++ "#$%&'()*+,-./:;<=>?@[\]^_`{|}~" ++
  " " ++ chr 9 ++ chr 10 ++ chr 13 ++ chr 11 ++ chr 12.

Open Scope list_scope.

(* ------------------------------------------------------------------ *)
(** ** Python dicts (insertion-ordered association lists) *)

Section Dict.
Context {V : Type}.

(** [d[k]] / [d.get(k)]. *)
Fixpoint dict_get (k : string) (d : list (string * V)) : option V :=
  match d with
  | [] => None
  | (k', v) :: t => if String.eqb k k' then Some v else dict_get k t
  end.

(** [d[k] = v]: overwrite in place, or append a new entry. *)
Fixpoint dict_set (k : string) (v : V) (d : list (string * V)) : list (string * V) :=
  match d with
  | [] => [(k, v)]
  | (k', v') :: t => if String.eqb k k' then (k', v) :: t else (k', v') :: dict_set k v t
  end.

(** [d.update(e)]. *)
Definition dict_update (d e : list (string * V)) : list (string * V) :=
  fold_left (fun acc kv => dict_set (fst kv) (snd kv) acc) e d.

End Dict.

(* ------------------------------------------------------------------ *)
(** ** The layout description (the parsed XML tree)

    [<kbd><row id=..><key lower=.. upper=..><pos><x>..</x><y>..</y></pos>
    </key>..</row>..</kbd>].  An absent attribute or child element is
    [None]; the text of [<x>] and [<y>] is given as the number [float]
    reads from it. *)

Record Pos := mkPos { pos_x : option Q; pos_y : option Q }.
Record Key := mkKey { key_lower : option string; key_upper : option string;
                      key_pos : list Pos }.
Record Row := mkRow { row_id : option string; row_keys : list Key }.
Definition Kbd := list Row.

Inductive ParseError :=
| MissingAttribute   (* no [lower] attribute *)
| InvalidCharacter   (* [lower] not in [char_count] *)
| DuplicateKey       (* [char_count[...] > 1] *)
| InvalidShiftSelf   (* a shift key given an [upper] *)
| NoDefaultShift     (* no default shift mapping *)
| MissingPosition    (* [position[0]] on an empty [findall] *)
| MissingCoordinate  (* no [<x>] or no [<y>] *)
| MissingRowId       (* [row.get("id").lower()] on [None] *)
| MissingHomeRow.    (* no row with id "home" *)

Module Parser.

Definition special_keys : list string :=
  ["shift_l"; "shift_r"; "space"; "backspace"; "tab"; "capslock"; "enter"].

(** [__reset_count]: every printable character and special key counts 0. *)
Definition initial_char_count : list (string * nat) :=
  map (fun c => (c, 0%nat)) (py_chars printable ++ special_keys).

(** [__default_shift]. *)
Definition default_shift_mapping : list (string * string) :=
  map (fun a => (String a EmptyString, String (ascii_of_nat (nat_of_ascii a - 32)%nat) EmptyString))
      (list_ascii_of_string "abcdefghijklmnopqrstuvwxyz") ++
  [("`", "~"); ("1", "!"); ("2", "@"); ("3", "#"); ("4", "$"); ("5", "%");
   ("6", "^"); ("7", "&"); ("8", "*"); ("9", "("); ("0", ")"); ("-", "_");
   ("=", "+"); ("[", "{"); ("]", "}"); ("\", "|"); (";", ":"); ("'", chr 34);
   (",", "<"); (".", ">"); ("/", "?")] ++
  map (fun k => (k, k)) special_keys.

(** Parser state: [char_count], [shift_mapping], [home_row] and [keymap]
    (row id -> {lower char -> raw (x, y)}). *)
Record PState := mkPState {
  char_count : list (string * nat);
  shift_mapping : list (string * string);
  home_row : list (string * (Q * Q));
  keymap : list (string * list (string * (Q * Q)))
}.

(** [__generate_keylist]: validate one key, bump its count, record its
    shift mapping and return the lower character.  ([is_generated] is
    [False] throughout [__generate_keymap], so its early return is not
    taken.) *)
Definition generate_keylist (cc : list (string * nat)) (sm : list (string * string))
    (k : Key) : result (string * list (string * nat) * list (string * string)) ParseError :=
  match key_lower k with
  | None => Err MissingAttribute
  | Some c =>
    match dict_get (py_lower c) cc with
    | None => Err InvalidCharacter
    | Some n =>
      if (1 <? n)%nat then Err DuplicateKey else
      let cc' := dict_set (py_lower c) (S n) cc in
      match key_upper k with
      | Some u =>
        if str_contains (py_lower c) "shift" then Err InvalidShiftSelf
        else if str_in c special_keys then Ok (c, cc', dict_set (py_lower c) u sm)
        else Ok (c, cc', dict_set c u sm)
      | None =>
        if str_contains ascii_uppercase c then Err NoDefaultShift
        else match dict_get (py_lower c) default_shift_mapping with
             | None => Err NoDefaultShift
             | Some d => Ok (py_lower c, cc', dict_set (py_lower c) d sm)
             end
      end
    end
  end.

(** [get_positions] followed by [get_x] and [get_y]. *)
Definition key_position (k : Key) : result (Q * Q) ParseError :=
  match key_pos k with
  | [] => Err MissingPosition
  | p :: _ =>
    match pos_x p, pos_y p with
    | Some x, Some y => Ok (x, y)
    | _, _ => Err MissingCoordinate
    end
  end.

(** The inner loop of [__generate_keymap] over the keys of one row. *)
Fixpoint keys_loop (cc : list (string * nat)) (sm : list (string * string))
    (row_map : list (string * (Q * Q))) (ks : list Key)
    : result (list (string * nat) * list (string * string) * list (string * (Q * Q))) ParseError :=
  match ks with
  | [] => Ok (cc, sm, row_map)
  | k :: ks' =>
    let* r := generate_keylist cc sm k in
    let '(lower_key, cc', sm') := r in
    let* p := key_position k in
    keys_loop cc' sm' (dict_set lower_key p row_map) ks'
  end.

(** The outer loop of [__generate_keymap] over the rows. *)
Fixpoint rows_loop (st : PState) (rows : list Row) : result PState ParseError :=
  match rows with
  | [] => Ok st
  | r :: rows' =>
    let* res := keys_loop (char_count st) (shift_mapping st) [] (row_keys r) in
    let '(cc, sm, row_map) := res in
    match row_id r with
    | None => Err MissingRowId
    | Some rid =>
      let home := if String.eqb (py_lower rid) "home"
                  then dict_update (home_row st) row_map else home_row st in
      let km := match dict_get rid (keymap st) with
                | Some old => dict_set rid (dict_update old row_map) (keymap st)
                | None => dict_set rid row_map (keymap st)
                end in
      rows_loop (mkPState cc sm home km) rows'
    end
  end.

(** [xmlParser(filename)]: [__generate_keymap] from a fresh state. *)
Definition parse (kbd : Kbd) : result PState ParseError :=
  let* st := rows_loop (mkPState initial_char_count [] [] []) kbd in
  match home_row st with
  | [] => Err MissingHomeRow
  | _ => Ok st
  end.

End Parser.

(* ------------------------------------------------------------------ *)
(** ** The painter *)

Inductive RuntimeError :=
| TypeError    (* subscripting [None] *)
| KeyError     (* missing dict entry *)
| ValueError   (* [min([])], [gaussian_kde] on no points *)
| IndexError.  (* [lst[0]] on an empty list *)

(** Float comparisons. *)
Definition Qlt_bool (a b : Q) : bool := negb (Qle_bool b a).

(** Python's [max(a, b)]: [b] only when [b > a]. *)
Definition py_max (a b : Q) : Q := if Qlt_bool a b then b else a.

Module Painter.

(** [self.xsize], [self.ysize] and the [padding] of [__draw_keys]. *)
Definition xsize0 : Q := 1.
Definition ysize0 : Q := 1.
Definition padding : Q := 3 # 10.

(** [ordered_keymap]: keys grouped by raw y (first-seen order of the y
    values), each group in declaration order. *)
Fixpoint group_add (y : Q) (e : string * Q) (g : list (Q * list (string * Q)))
    : list (Q * list (string * Q)) :=
  match g with
  | [] => [(y, [e])]
  | (y', l) :: t => if Qeq_bool y y' then (y', l ++ [e]) :: t
                    else (y', l) :: group_add y e t
  end.

Definition ordered_keymap (km : list (string * list (string * (Q * Q))))
    : list (Q * list (string * Q)) :=
  fold_left (fun g row =>
    fold_left (fun g ce => group_add (snd (snd ce)) (fst ce, fst (snd ce)) g) (snd row) g)
    km [].

(** [lst.sort(key=lambda t: t[1])]: a stable insertion sort on x. *)
Fixpoint insert_by_x (e : string * Q) (l : list (string * Q)) : list (string * Q) :=
  match l with
  | [] => [e]
  | h :: t => if Qlt_bool (snd e) (snd h) then e :: l else h :: insert_by_x e t
  end.

Definition sort_by_x (l : list (string * Q)) : list (string * Q) :=
  fold_left (fun acc e => insert_by_x e acc) l [].

(** The width of the box drawn for the key number [count] of a row of [n]
    keys: the first and the last keys are wider. *)
Definition box_width (count n : nat) : Q :=
  xsize0 + (if (count =? 0)%nat then 3 # 2 else 0)
         + (if (count =? n - 1)%nat then 6 # 5 else 0).

(** The inner loop of [__draw_keys] over one sorted row.  [xsize] is the
    variable of the source: at the [max] it still holds the width of the
    previously drawn box. Returns the final [xsize], [xmax], [ymax], the
    row of [visual_keymap] and the list [xdata] of this row. *)
Fixpoint walk_row (sm : list (string * string)) (y : Q) (n count : nat)
    (prev_x xsize xmax ymax : Q) (vrow : list (string * (Q * Q))) (xdata : list Q)
    (lst : list (string * Q))
    : result (Q * Q * Q * list (string * (Q * Q)) * list Q) RuntimeError :=
  match lst with
  | [] => Ok (xsize, xmax, ymax, vrow, xdata)
  | (ch, x) :: t =>
    let ax := py_max x (prev_x + xsize + padding) in
    let xs := box_width count n in
    let vrow' := dict_set ch (ax, y) vrow in
    let xmax' := if Qlt_bool xmax (ax + xs + padding) then ax + xs + padding else xmax in
    let ymax' := if Qlt_bool ymax (y + ysize0) then y + ysize0 + padding else ymax in
    match dict_get (py_lower ch) sm with
    | None => Err KeyError        (* [shift_mapping[char.lower()]] *)
    | Some _ => walk_row sm y n (S count) ax xs xmax' ymax' vrow' (xdata ++ [ax]) t
    end
  end.

(** The outer loop of [__draw_keys] over the y groups; [visual_keymap[y]]
    gets a fresh row for each group (the group keys are pairwise distinct). *)
Fixpoint draw_groups (sm : list (string * string)) (xsize xmax ymax : Q)
    (vk : list (Q * list (string * (Q * Q)))) (groups : list (Q * list (string * Q)))
    : result (Q * Q * list (Q * list (string * (Q * Q)))) RuntimeError :=
  match groups with
  | [] => Ok (xmax, ymax, vk)
  | (y, lst) :: gs =>
    let lst' := sort_by_x lst in
    match lst' with
    | [] => Err IndexError
    | (_, x0) :: _ =>
      let* r := walk_row sm y (length lst') 0 x0 xsize xmax ymax [] [] lst' in
      let '(xs, xm, ym, vrow, _) := r in
      draw_groups sm xs xm ym (vk ++ [(y, vrow)]) gs
    end
  end.

(** [__draw_keys]: returns [xmax], [ymax] and [visual_keymap]. *)
Definition draw_keys (km : list (string * list (string * (Q * Q))))
    (sm : list (string * string)) :=
  draw_groups sm xsize0 0 0 [] (ordered_keymap km).

(** [find_nested_key]: the first row of [visual_keymap] holding [c]. *)
Fixpoint find_nested_key (vk : list (Q * list (string * (Q * Q)))) (c : string)
    : option (Q * Q) :=
  match vk with
  | [] => None
  | (_, row) :: t =>
    match dict_get c row with
    | Some v => Some v
    | None => find_nested_key t c
    end
  end.

(** [self.special_keys] of the painter, as written in the source. *)
Definition special_keys : list (string * string) :=
  [(" ", "space"); (chr 9, "tab"); ("/r", "enter"); (chr 127, "backspace")].

(** The substitution at the start of the loop of [update_heatmap]. *)
Definition substitute (c : string) : string :=
  match dict_get c special_keys with
  | Some s => s
  | None => c
  end.

(** The point a key's heat is centred on: [(pos[0] + xsize/2, pos[1] + ysize/2)]. *)
Definition center (p : Q * Q) : Q * Q := (fst p + xsize0 / 2, snd p + ysize0 / 2).

(** One ring of [__update_points]: [n] points at radius [r] around [c], at
    angles [2 pi i / n]. *)
Definition ring (c : Q * Q) (n : nat) (r : Q) : list (R * R) :=
  map (fun i =>
         let angle := (2 * PI * INR i / INR n)%R in
         (Q2R (fst c) + Q2R r * cos angle, Q2R (snd c) + Q2R r * sin angle)%R)
      (seq 0 n).

(** The [while distance < 1] loop of [__update_points] ([fuel] bounds the
    iterations; four are taken). *)
Fixpoint rings_loop (fuel : nat) (c : Q * Q) (points : nat) (distance : Q) : list (R * R) :=
  match fuel with
  | O => []
  | S f =>
    if Qlt_bool distance 1 then
      let points' := (points * 3)%nat in
      ring c points' distance ++ rings_loop f c points' (distance * 2)
    else []
  end.

(** [__update_points]: the stored points ([heatmap_pointsx] and
    [heatmap_pointsy], kept as one list of pairs) get the rings appended. *)
Definition update_points (pts : list (R * R)) (c : Q * Q) : list (R * R) :=
  pts ++ rings_loop 16 c 1 (1 # 10).

(** The painter's state. *)
Record PainterState := mkPainter {
  visual_keymap : list (Q * list (string * (Q * Q)));
  xmax : Q;
  ymax : Q;
  p_shift_mapping : list (string * string);
  p_home_row : list (string * (Q * Q));
  points : list (R * R)
}.

(** The search of [update_heatmap] for a key whose shifted character is
    [c]: returns the final value of [pos] and the points.  On a hit the base
    key's rings are deposited, then those of [shift_r] (base key left of
    [xmax/2]) or [shift_l], and the loop breaks. *)
Fixpoint shift_loop (vk : list (Q * list (string * (Q * Q)))) (xm : Q)
    (sm : list (string * string)) (c : string) (pts : list (R * R))
    : result (option (Q * Q) * list (R * R)) RuntimeError :=
  match sm with
  | [] => Ok (None, pts)
  | (lower, upper) :: rest =>
    if String.eqb upper c then
      match find_nested_key vk lower with
      | Some p =>
        let pts1 := update_points pts (center p) in
        let shift_char := if Qlt_bool (fst p) (xm / 2) then "shift_r" else "shift_l" in
        match find_nested_key vk shift_char with
        | None => Err TypeError                       (* [shift_pos[0]] *)
        | Some sp => Ok (Some p, update_points pts1 (center sp))
        end
      | None => shift_loop vk xm rest c pts           (* "not found" printed *)
      end
    else shift_loop vk xm rest c pts
  end.

(** [min([dist(pos, home) for home in self.home_row.values()])]. *)
Definition home_distance (home : list (string * (Q * Q))) (p : Q * Q) : result R RuntimeError :=
  match map (fun h => sqrt (Q2R ((fst p - fst h) * (fst p - fst h)
                                 + (snd p - snd h) * (snd p - snd h))))
            (map snd home) with
  | [] => Err ValueError
  | d :: ds => Ok (fold_left Rmin ds d)
  end.

(** One iteration of the loop of [update_heatmap]. *)
Definition char_step (P : PainterState) (acc : list (R * R) * R) (ch : string)
    : result (list (R * R) * R) RuntimeError :=
  let '(pts, dist) := acc in
  let c := substitute ch in
  let* r := match find_nested_key (visual_keymap P) c with
            | Some p => Ok (Some p, update_points pts (center p))
            | None => shift_loop (visual_keymap P) (xmax P) (p_shift_mapping P) c pts
            end in
  let '(pos, pts') := r in
  match pos with
  | None => Err TypeError                             (* [pos[0]] *)
  | Some p =>
    let* d := home_distance (p_home_row P) p in
    Ok (pts', (dist + d)%R)
  end.

Fixpoint chars_loop (P : PainterState) (acc : list (R * R) * R) (cs : list string)
    : result (list (R * R) * R) RuntimeError :=
  match cs with
  | [] => Ok acc
  | ch :: cs' => let* acc' := char_step P acc ch in chars_loop P acc' cs'
  end.

(** [maxsize] of [update_heatmap]. *)
Definition maxsize : nat := 3000.

(** The points the density estimate is computed from: local copies of the
    stored points with [np.delete(x, np.s_[0 : x.size - maxsize])] applied
    when [maxsize < x.size]. *)
Definition kde_window (pts : list (R * R)) : list (R * R) :=
  if (maxsize <? length pts)%nat then skipn (length pts - maxsize) pts else pts.

(** The outcome of one [update_heatmap] call: the new painter state, the
    points handed to [gaussian_kde], and the returned distance. *)
Record Update := mkUpdate { new_state : PainterState; window : list (R * R); travelled : R }.

(** [update_heatmap(chars)].  The density itself (evaluated on the grid and
    drawn) is not modelled.  Of the failures of [gaussian_kde] only the one
    on an empty point set is kept: scipy also raises on degenerate data (a
    single point, collinear points), which the stored points, deposited in
    whole rings of 120, never are once one key has been pressed. *)
Definition update_heatmap (P : PainterState) (chars : string) : result Update RuntimeError :=
  let* r := chars_loop P (points P, 0%R) (py_chars chars) in
  let '(pts, dist) := r in
  let w := kde_window pts in
  match w with
  | [] => Err ValueError
  | _ => Ok (mkUpdate (mkPainter (visual_keymap P) (xmax P) (ymax P) (p_shift_mapping P)
                                 (p_home_row P) pts) w dist)
  end.

(** [Painter(keymap, shift_mapping, home_row)]: draws the keys. *)
Definition init (st : Parser.PState) : result PainterState RuntimeError :=
  let* d := draw_keys (Parser.keymap st) (Parser.shift_mapping st) in
  let '(xm, ym, vk) := d in
  Ok (mkPainter vk xm ym (Parser.shift_mapping st) (Parser.home_row st) []).

(** [mesh_granularity] of [Painter.__init__]. *)
Definition mesh_granularity : R := 1000.

(** Number of samples on one axis of [np.mgrid[-1 : m : n * 1j]]: numpy
    takes [int(abs(n))], with [n = (m * mesh_granularity) ** 0.5]. *)
Definition axis_samples (m g : R) : Z := Int_part (Rabs (sqrt (m * g))).

(** The [k]-th sample of that axis (numpy's [linspace(-1, m, n)]). *)
Definition axis_point (m : R) (n : Z) (k : nat) : R :=
  (-1 + INR k * (m - -1) / (IZR n - 1))%R.

(** The shape of [self.xi] (and of the density grid): samples on x and on y. *)
Definition grid_shape (xm ym g : R) : Z * Z := (axis_samples xm g, axis_samples ym g).

End Painter.

(** The event loop of [main]: one [update_heatmap] call per typed
    character, summing the returned distances; a carriage return stops the
    loop before it reaches the painter. *)
Fixpoint main_loop (P : Painter.PainterState) (total : R) (cs : list string)
    : result (Painter.PainterState * R) RuntimeError :=
  match cs with
  | [] => Ok (P, total)
  | c :: cs' =>
    if String.eqb c (chr 13) then Ok (P, total)
    else let* u := Painter.update_heatmap P c in
         main_loop (Painter.new_state u) (total + Painter.travelled u)%R cs'
  end.

(** The painter built from a layout description, if parsing and drawing
    succeed. *)
Definition painter_of (kbd : Kbd) : option Painter.PainterState :=
  match Parser.parse kbd with
  | Ok st => match Painter.init st with Ok P => Some P | Err _ => None end
  | Err _ => None
  end.

(** The whole program on one layout and one typed text. *)
Definition session (kbd : Kbd) (typed : string) : result (Painter.PainterState * R) RuntimeError :=
  match Parser.parse kbd with
  | Err _ => Err ValueError        (* "failed to parse!" *)
  | Ok st => let* P := Painter.init st in main_loop P 0%R (py_chars typed)
  end.

(* ------------------------------------------------------------------ *)
(** ** Readings of the specification, for comparison with the code *)

(** The ring generation as the specification words it: the count starts
    at 1 and triples after each ring (rings of 1, 3, 9, 27 points). *)
Fixpoint spec_rings_loop (fuel : nat) (c : Q * Q) (points : nat) (distance : Q) : list (R * R) :=
  match fuel with
  | O => []
  | S f =>
    if Qlt_bool distance 1 then
      Painter.ring c points distance ++ spec_rings_loop f c (points * 3)%nat (distance * 2)
    else []
  end.

Definition spec_update_points (pts : list (R * R)) (c : Q * Q) : list (R * R) :=
  pts ++ spec_rings_loop 16 c 1 (1 # 10).

(** The adjusted x-coordinates of one sorted row, as [__draw_keys]
    computes them: [max(x, prev_x + w + padding)], where [w] is the width of
    the box drawn just before ([box_width]; for the first key of a row,
    [prev_x] is its own raw x and [w] is the width left over in [xsize]). *)
Fixpoint row_formula (prev w : Q) (count n : nat) (lst : list (string * Q)) (adj : list Q) : Prop :=
  match lst, adj with
  | [], [] => True
  | (_, x) :: t, a :: adj' =>
    a = py_max x (prev + w + Painter.padding) /\
    row_formula a (Painter.box_width count n) (S count) n t adj'
  | _, _ => False
  end.

(** Every coordinate lies at least one key width plus the padding to the
    right of the one before it (the first one, of [prev]). *)
Fixpoint gapped (prev : Q) (adj : list Q) : Prop :=
  match adj with
  | [] => True
  | a :: t => prev + Painter.xsize0 + Painter.padding <= a /\ gapped a t
  end.

(* ------------------------------------------------------------------ *)
(** ** Example layouts *)

Definition at_xy (x y : Q) : list Pos := [mkPos (Some x) (Some y)].

(** Home row [a (0,0)] (shifted: [A]) and [s (1,0)]; a second row holds
    [shift_l (0,1)]. *)
Definition layout_shift_l : Kbd :=
  [mkRow (Some "home") [mkKey (Some "a") (Some "A") (at_xy 0 0); mkKey (Some "s") None (at_xy 1 0)];
   mkRow (Some "bottom") [mkKey (Some "shift_l") None (at_xy 0 1)]].

(** The same with [shift_r (3,1)] as well. *)
Definition layout_shifts : Kbd :=
  [mkRow (Some "home") [mkKey (Some "a") (Some "A") (at_xy 0 0); mkKey (Some "s") None (at_xy 1 0)];
   mkRow (Some "bottom") [mkKey (Some "shift_l") None (at_xy 0 1);
                          mkKey (Some "shift_r") None (at_xy 3 1)]].


(** A home row declaring [a] twice, and one declaring it three times. *)
Definition layout_a_twice : Kbd :=
  [mkRow (Some "home") [mkKey (Some "a") None (at_xy 0 0); mkKey (Some "a") None (at_xy 1 0)]].

Definition layout_a_thrice : Kbd :=
  [mkRow (Some "home") [mkKey (Some "a") None (at_xy 0 0); mkKey (Some "a") None (at_xy 1 0);
                        mkKey (Some "a") None (at_xy 2 0)]].

Definition empty_painter : Painter.PainterState := Painter.mkPainter [] 0 0 [] [] [].

Definition painter_shift_l : Painter.PainterState :=
  match painter_of layout_shift_l with Some P => P | None => empty_painter end.
Definition painter_shifts : Painter.PainterState :=
  match painter_of layout_shifts with Some P => P | None => empty_painter end.

(** Twenty-six presses of [a]. *)
Definition a_26 : string := "aaaaaaaaaaaaaaaaaaaaaaaaaa".

(* ------------------------------------------------------------------ *)
(** ** Auxiliary notions for the properties below *)

(** Every character count is at most 2. *)
Definition counts_bounded (cc : list (string * nat)) : Prop :=
  forall c n, dict_get c cc = Some n -> (n <= 2)%nat.

(** The invariant of the parser state across rows. *)
Definition pstate_inv (st : Parser.PState) : Prop :=
  NoDup (map fst (Parser.keymap st)) /\ NoDup (map fst (Parser.home_row st)) /\
  counts_bounded (Parser.char_count st).

(** Key [c] at raw x [x] sits in a group of [ordered_keymap] whose y
    equals [y]. *)
Definition grouped (g : list (Q * list (string * Q))) (c : string) (x y : Q) : Prop :=
  exists y' l, In (y', l) g /\ In (c, x) l /\ y == y'.

(** The order of [lst.sort(key=lambda t: t[1])]. *)
Definition x_le (a b : string * Q) : Prop := snd a <= snd b.

(** The entries of a visual keymap row at height [y] lie inside the
    figure limits [xm], [ym]. *)
Definition in_box (y xm ym : Q) (vrow : list (string * (Q * Q))) : Prop :=
  forall c p, In (c, p) vrow ->
    snd p = y /\ fst p + Painter.xsize0 + Painter.padding <= xm /\ snd p + Painter.ysize0 <= ym.

(** Every key of the keymap has a shift mapping under its own name. *)
Definition keymap_has_shifts (st : Parser.PState) : Prop :=
  forall rid row, In (rid, row) (Parser.keymap st) ->
    forall x, In x (map fst row) -> In x (map fst (Parser.shift_mapping st)).

(** Key [c] is declared in the keymap at raw x [x]. *)
Definition km_has (km : list (string * list (string * (Q * Q)))) (c : string) (x : Q) : Prop :=
  exists rid row p, In (rid, row) km /\ In (c, p) row /\ fst p = x.

(** The Euclidean distance computed in [update_heatmap]. *)
Definition euclid (p h : Q * Q) : R :=
  sqrt (Q2R ((fst p - fst h) * (fst p - fst h) + (snd p - snd h) * (snd p - snd h))).

(* ================================================================== *)
(** * Properties *)

(** ** Helper lemmas *)

Lemma shift_loop_no_target vk xm sm c pts :
  forallb (fun e => negb (String.eqb (snd e) c)) sm = true ->
  Painter.shift_loop vk xm sm c pts = Ok (None, pts).
Proof.
  induction sm as [|[l u] sm IH]; simpl; intros H; [reflexivity|].
  apply andb_prop in H as [H1 H2].
  destruct (String.eqb u c); [discriminate H1|].
  apply IH, H2.
Qed.

(** ** C1 *)

(** C1 (code defect): a character that is neither a key of the visual
    keymap nor the shifted character of any key is not skipped: the
    distance line subscripts [pos = None], so [update_heatmap] raises
    ([TypeError]) instead of completing with no sample and no distance. *)
Theorem unresolved_char_aborts_update (P : Painter.PainterState) (a : ascii) (rest : string) :
  Painter.find_nested_key (Painter.visual_keymap P)
    (Painter.substitute (String a EmptyString)) = None ->
  forallb (fun e => negb (String.eqb (snd e) (Painter.substitute (String a EmptyString))))
    (Painter.p_shift_mapping P) = true ->
  Painter.update_heatmap P (String a rest) = Err TypeError.
Proof.
  intros Hf Hs.
  unfold Painter.update_heatmap; cbn [py_chars Painter.chars_loop].
  unfold Painter.char_step; rewrite Hf.
  rewrite shift_loop_no_target by exact Hs.
  reflexivity.
Qed.

Lemma unresolved_char_aborts_update_witness :
  Painter.update_heatmap painter_shifts "z" = Err TypeError.
Proof.
  apply (unresolved_char_aborts_update painter_shifts "z"%char EmptyString);
    vm_compute; reflexivity.
Defined.

(** ** C3 *)

(** C3 (code defect): the duplicate check is [char_count[c] > 1] before the
    increment, so a character seen once already (count 1) passes it: a
    layout declaring [a] twice parses; only a third declaration fails with
    [DuplicateKey]. *)
Theorem second_declaration_passes_duplicate_check :
  (forall cc sm k c, key_lower k = Some c -> dict_get (py_lower c) cc = Some 1%nat ->
     Parser.generate_keylist cc sm k <> Err DuplicateKey) /\
  is_ok (Parser.parse layout_a_twice) = true /\
  Parser.parse layout_a_thrice = Err DuplicateKey.
Proof.
  split; [|split; vm_compute; reflexivity].
  intros cc sm k c Hk Hc.
  unfold Parser.generate_keylist; rewrite Hk, Hc; cbn -[dict_get dict_set].
  destruct (key_upper k);
    repeat match goal with
           | |- context [if ?b then _ else _] => destruct b
           | |- context [match ?m with Some _ => _ | None => _ end] => destruct m
           end; discriminate.
Qed.

(** ** C8 *)


(** ** C4 *)

Lemma ring_length c n r : length (Painter.ring c n r) = n.
Proof. unfold Painter.ring; rewrite length_map, length_seq; reflexivity. Qed.

Lemma ring_nth c n r i :
  (i < n)%nat ->
  nth_error (Painter.ring c n r) i =
  Some (Q2R (fst c) + Q2R r * cos (2 * PI * INR i / INR n),
        Q2R (snd c) + Q2R r * sin (2 * PI * INR i / INR n))%R.
Proof.
  intros Hi; unfold Painter.ring.
  rewrite nth_error_map, nth_error_seq.
  apply Nat.ltb_lt in Hi; rewrite Hi; reflexivity.
Qed.

(** The [while] loop of [__update_points] runs four times. *)
Lemma rings_loop_unrolled c :
  Painter.rings_loop 16 c 1 (1 # 10) =
  Painter.ring c 3 (1 # 10) ++ Painter.ring c 9 (2 # 10) ++
  Painter.ring c 27 (4 # 10) ++ Painter.ring c 81 (8 # 10).
Proof. rewrite <- (app_nil_r (Painter.ring c 81 _)); reflexivity. Qed.

Lemma spec_rings_loop_unrolled c :
  spec_rings_loop 16 c 1 (1 # 10) =
  Painter.ring c 1 (1 # 10) ++ Painter.ring c 3 (2 # 10) ++
  Painter.ring c 9 (4 # 10) ++ Painter.ring c 27 (8 # 10).
Proof. rewrite <- (app_nil_r (Painter.ring c 27 _)); reflexivity. Qed.

Lemma update_points_length pts c :
  length (Painter.update_points pts c) = (length pts + 120)%nat.
Proof.
  unfold Painter.update_points; rewrite rings_loop_unrolled.
  rewrite !length_app, !ring_length; reflexivity.
Qed.

(** C4, refuted: the deposit is not the ring sequence 1, 3, 9, 27 of the
    specification (it does not even have the same number of points). *)
Lemma deposit_rings_not_1_3_9_27 :
  Painter.update_points [] (0, 0) <> spec_update_points [] (0, 0).
Proof.
  intro H; apply (f_equal (@length (R * R))) in H.
  rewrite update_points_length in H.
  unfold spec_update_points in H; rewrite spec_rings_loop_unrolled in H.
  rewrite !length_app, !ring_length in H; discriminate H.
Qed.

(** C4, as the code does it: one deposit appends rings at radii 0.1, 0.2,
    0.4 and 0.8 (the radius starts at 0.1 and doubles while below 1); the
    count, starting at 1, is tripled before each ring, so the rings hold
    3, 9, 27 and 81 points (120 in all); point [i] of a ring of [n] points
    lies at angle [2 pi i / n] around the centre. *)
Theorem deposit_rings (pts : list (R * R)) (c : Q * Q) :
  Painter.update_points pts c =
    pts ++ Painter.ring c 3 (1 # 10) ++ Painter.ring c 9 (2 # 10) ++
    Painter.ring c 27 (4 # 10) ++ Painter.ring c 81 (8 # 10) /\
  length (Painter.update_points pts c) = (length pts + 120)%nat /\
  (forall n r i, (i < n)%nat ->
     nth_error (Painter.ring c n r) i =
     Some (Q2R (fst c) + Q2R r * cos (2 * PI * INR i / INR n),
           Q2R (snd c) + Q2R r * sin (2 * PI * INR i / INR n))%R).
Proof.
  split; [unfold Painter.update_points; rewrite rings_loop_unrolled; reflexivity|].
  split; [apply update_points_length|].
  intros n r i Hi; apply ring_nth, Hi.
Qed.

(** ** C2 *)

Definition extends (pts pts' : list (R * R)) : Prop := exists fresh, pts' = pts ++ fresh.

Lemma extends_update_points pts c : extends pts (Painter.update_points pts c).
Proof. eexists; reflexivity. Qed.

Lemma extends_trans a b c : extends a b -> extends b c -> extends a c.
Proof. intros [f1 ->] [f2 ->]; exists (f1 ++ f2); symmetry; apply app_assoc. Qed.

Lemma shift_loop_extends vk xm sm c pts o pts' :
  Painter.shift_loop vk xm sm c pts = Ok (o, pts') -> extends pts pts'.
Proof.
  induction sm as [|[l u] sm IH]; simpl.
  - intros H; injection H as _ <-; exists []; symmetry; apply app_nil_r.
  - destruct (String.eqb u c); [|exact IH].
    destruct (Painter.find_nested_key vk l) as [p|]; [|exact IH].
    destruct (Painter.find_nested_key vk _) as [sp|]; [|discriminate].
    intros H; injection H as _ <-.
    eapply extends_trans; apply extends_update_points.
Qed.

Lemma char_step_extends P pts d ch pts' d' :
  Painter.char_step P (pts, d) ch = Ok (pts', d') -> extends pts pts'.
Proof.
  unfold Painter.char_step.
  destruct (Painter.find_nested_key _ _) as [p|] eqn:Hf.
  - cbn [bind]. destruct (Painter.home_distance _ _); [|discriminate].
    intros H; injection H as <- _; apply extends_update_points.
  - destruct (Painter.shift_loop _ _ _ _ _) as [[o q]|] eqn:Hs; cbn [bind]; [|discriminate].
    destruct o; [|discriminate].
    destruct (Painter.home_distance _ _); [|discriminate].
    intros H; injection H as <- _; eapply shift_loop_extends; exact Hs.
Qed.

Lemma chars_loop_extends P cs : forall pts d pts' d',
  Painter.chars_loop P (pts, d) cs = Ok (pts', d') -> extends pts pts'.
Proof.
  induction cs as [|ch cs IH]; intros pts d pts' d' H; cbn [Painter.chars_loop] in H.
  - injection H as <- _; exists []; symmetry; apply app_nil_r.
  - destruct (Painter.char_step P (pts, d) ch) as [[q e]|] eqn:Hc; cbn [bind] in H; [|discriminate H].
    eapply extends_trans; [eapply char_step_extends; exact Hc|].
    eapply IH; exact H.
Qed.

Lemma kde_window_suffix pts :
  Painter.kde_window pts = skipn (length pts - Painter.maxsize) pts /\
  length (Painter.kde_window pts) = Nat.min (length pts) Painter.maxsize.
Proof.
  unfold Painter.kde_window.
  destruct (Painter.maxsize <? length pts)%nat eqn:E.
  - apply Nat.ltb_lt in E. split; [reflexivity|].
    rewrite length_skipn. unfold Painter.maxsize in *. lia.
  - apply Nat.ltb_ge in E.
    replace (length pts - Painter.maxsize)%nat with 0%nat by lia.
    split; [reflexivity|]. rewrite Nat.min_l by exact E; reflexivity.
Qed.

(** C2, refuted: the stored sample sequence is never trimmed.  Typing [a]
    26 times (one [update_heatmap] call per key, as [main] does) leaves
    3120 stored points. *)
Lemma stored_points_exceed_3000 :
  match session layout_shifts a_26 with
  | Ok (P, _) => length (Painter.points P) = 3120%nat
  | Err _ => False
  end.
Proof. exact (eq_refl 3120%nat). Qed.

(** C2, as the code does it: an update only appends to the stored points;
    the estimator is fed the newest [min(n, 3000)] of them, the oldest being
    dropped first. *)
Theorem update_keeps_points_trims_estimator_input
    (P : Painter.PainterState) (chars : string) (u : Painter.Update) :
  Painter.update_heatmap P chars = Ok u ->
  extends (Painter.points P) (Painter.points (Painter.new_state u)) /\
  Painter.window u = skipn (length (Painter.points (Painter.new_state u)) - Painter.maxsize)
                           (Painter.points (Painter.new_state u)) /\
  length (Painter.window u) = Nat.min (length (Painter.points (Painter.new_state u))) Painter.maxsize.
Proof.
  unfold Painter.update_heatmap.
  destruct (Painter.chars_loop _ _ _) as [[pts d]|] eqn:Hl; cbn [bind]; [|discriminate].
  destruct (Painter.kde_window pts) eqn:Ew; [discriminate|].
  intros H; injection H as <-; cbn [Painter.new_state Painter.window Painter.points].
  rewrite <- Ew.
  pose proof (kde_window_suffix pts) as [Hw Hn].
  split; [eapply chars_loop_extends; exact Hl|].
  split; [exact Hw|exact Hn].
Qed.

Lemma update_keeps_points_trims_estimator_input_witness :
  exists u, Painter.update_heatmap painter_shifts "a" = Ok u /\
    extends (Painter.points painter_shifts) (Painter.points (Painter.new_state u)).
Proof.
  assert (Hok : is_ok (Painter.update_heatmap painter_shifts "a") = true) by reflexivity.
  destruct (Painter.update_heatmap painter_shifts "a") as [u|e] eqn:E; [|discriminate Hok].
  exists u; split; [reflexivity|].
  apply (update_keeps_points_trims_estimator_input painter_shifts "a" u E).
Defined.

(** ** C5 *)

Lemma shift_loop_hit vk xm pre lower c post pts p sp :
  forallb (fun e => negb (String.eqb (snd e) c) || is_none (Painter.find_nested_key vk (fst e))) pre = true ->
  Painter.find_nested_key vk lower = Some p ->
  Painter.find_nested_key vk (if Qlt_bool (fst p) (xm / 2) then "shift_r" else "shift_l") = Some sp ->
  Painter.shift_loop vk xm (pre ++ (lower, c) :: post) c pts =
  Ok (Some p, Painter.update_points (Painter.update_points pts (Painter.center p)) (Painter.center sp)).
Proof.
  intros Hpre Hl Hsp.
  induction pre as [|[l u] pre IH]; cbn [app Painter.shift_loop].
  - rewrite String.eqb_refl, Hl, Hsp; reflexivity.
  - cbn [forallb fst snd] in Hpre; apply andb_prop in Hpre as [H1 H2].
    destruct (String.eqb u c) eqn:Eu; [|apply IH, H2].
    cbn [negb orb] in H1.
    destruct (Painter.find_nested_key vk l); [discriminate H1|apply IH, H2].
Qed.

(** C5: a character that is not a key but is the shifted character of a
    key resolves to that base key (the first one in the shift mapping whose
    key exists) and to a modifier: [shift_l] when the base key's x is at
    least [xmax/2], [shift_r] otherwise.  Both are deposited, the base key
    first, and the distance is counted from the base key. *)
Theorem shifted_char_activates_base_and_modifier (P : Painter.PainterState)
    (pts : list (R * R)) (dist : R) (ch lower : string)
    (pre post : list (string * string)) (p sp : Q * Q) :
  Painter.find_nested_key (Painter.visual_keymap P) (Painter.substitute ch) = None ->
  Painter.p_shift_mapping P = pre ++ (lower, Painter.substitute ch) :: post ->
  forallb (fun e => negb (String.eqb (snd e) (Painter.substitute ch))
                    || is_none (Painter.find_nested_key (Painter.visual_keymap P) (fst e))) pre = true ->
  Painter.find_nested_key (Painter.visual_keymap P) lower = Some p ->
  Painter.find_nested_key (Painter.visual_keymap P)
    (if Qle_bool (Painter.xmax P / 2) (fst p) then "shift_l" else "shift_r") = Some sp ->
  Painter.char_step P (pts, dist) ch =
    let* d := Painter.home_distance (Painter.p_home_row P) p in
    Ok (Painter.update_points (Painter.update_points pts (Painter.center p)) (Painter.center sp),
        (dist + d)%R).
Proof.
  intros Hf Hsm Hpre Hl Hsp.
  unfold Painter.char_step; rewrite Hf, Hsm.
  rewrite (shift_loop_hit _ _ pre lower _ post pts p sp Hpre Hl).
  - reflexivity.
  - unfold Qlt_bool; destruct (Qle_bool _ _); exact Hsp.
Qed.

Lemma shifted_char_activates_base_and_modifier_witness :
  Painter.char_step painter_shifts ([], 0%R) "A" =
    let* d := Painter.home_distance (Painter.p_home_row painter_shifts) (13 # 10, 0) in
    Ok (Painter.update_points (Painter.update_points [] (Painter.center (13 # 10, 0)))
                              (Painter.center (5300 # 1000, 1)), (0 + d)%R).
Proof.
  apply (shifted_char_activates_base_and_modifier painter_shifts [] 0%R "A" "a" []
           [("s", "S"); ("shift_l", "shift_l"); ("shift_r", "shift_r")]);
    vm_compute; reflexivity.
Defined.

(** ** C6 *)

(** C6, refuted: with [a (0,0)] and [s (1,0)] in the home row and only
    [shift_l] declared, typing [A] does not activate [a] and [shift_l]:
    [a] lies left of [xmax/2], the code looks for [shift_r], finds none and
    raises. *)
Lemma shifted_A_in_shift_l_layout_fails :
  Painter.update_heatmap painter_shift_l "A" = Err TypeError.
Proof. reflexivity. Qed.

(** C6, as the code does it: [a] lies in the left half, so typing [A]
    activates [a] and the right shift key; with [shift_r] declared the
    deposits are at [a] and at [shift_r], and with only [shift_l] declared
    the update raises. *)
Theorem shifted_A_activates_a_and_shift_r :
  Painter.update_heatmap painter_shift_l "A" = Err TypeError /\
  exists pa psr,
    Painter.find_nested_key (Painter.visual_keymap painter_shifts) "a" = Some pa /\
    Qlt_bool (fst pa) (Painter.xmax painter_shifts / 2) = true /\
    Painter.find_nested_key (Painter.visual_keymap painter_shifts) "shift_r" = Some psr /\
    match Painter.update_heatmap painter_shifts "A" with
    | Ok u => Painter.points (Painter.new_state u) =
              Painter.update_points (Painter.update_points [] (Painter.center pa)) (Painter.center psr)
    | Err _ => False
    end.
Proof.
  split; [reflexivity|].
  exists (13 # 10, 0), (5300 # 1000, 1).
  split; [reflexivity|]. split; [reflexivity|]. split; [reflexivity|].
  exact eq_refl.
Qed.

(** ** C9 *)

Lemma py_max_ge_r (a b : Q) : b <= py_max a b.
Proof.
  unfold py_max, Qlt_bool.
  destruct (Qle_bool b a) eqn:E; cbn [negb].
  - apply Qle_bool_iff, E.
  - apply Qle_refl.
Qed.

Lemma box_width_ge_1 count n : 1 <= Painter.box_width count n.
Proof.
  unfold Painter.box_width, Painter.xsize0.
  destruct (count =? 0)%nat, (count =? n - 1)%nat; Lqa.lra.
Qed.

(** C9, refuted: in [layout_shifts] the home row is [a (0,0)], [s (1,0)];
    [a] is adjusted to 1.3, but [s] is adjusted to 4.1, not to
    [max(1, 1.3 + 1 + 0.3) = 2.6]: the gap after [a] uses the width of the
    widened first box (2.5). *)
Lemma s_adjusted_beyond_claimed_formula :
  Painter.find_nested_key (Painter.visual_keymap painter_shifts) "a" = Some (13 # 10, 0) /\
  Painter.find_nested_key (Painter.visual_keymap painter_shifts) "s" = Some (820 # 200, 0) /\
  Qeq_bool (820 # 200) (py_max 1 ((13 # 10) + Painter.xsize0 + Painter.padding)) = false.
Proof. split; [reflexivity|]. split; reflexivity. Qed.

(** C9, as the code does it: walking a sorted row, each adjusted x is
    [max(raw_x, prev_x + w + padding)] where [w] is the width of the box
    drawn just before (2.5 after a row's first key, 1 after a middle key;
    for the first key [prev_x] is its own raw x and [w] whatever [xsize]
    holds, at least 1).  Hence each adjusted x lies at least key width plus
    padding (1.3) right of the previous one, and the first one at least 1.3
    right of its raw x. *)
Theorem row_adjustment sm y n lst : forall count prev xsize xm ym vrow xdata res,
  1 <= xsize ->
  Painter.walk_row sm y n count prev xsize xm ym vrow xdata lst = Ok res ->
  exists adj, snd res = xdata ++ adj /\ row_formula prev xsize count n lst adj /\ gapped prev adj.
Proof.
  induction lst as [|[ch x] t IH]; intros count prev xsize xm ym vrow xdata res Hw H;
    cbn [Painter.walk_row] in H.
  - injection H as <-. exists []. split; [symmetry; apply app_nil_r|]. split; exact I.
  - destruct (dict_get (py_lower ch) sm); [|discriminate H].
    apply IH in H; [|apply box_width_ge_1].
    destruct H as [adj [Hres [Hf Hg]]].
    exists (py_max x (prev + xsize + Painter.padding) :: adj).
    split; [rewrite Hres, <- app_assoc; reflexivity|].
    split; [split; [reflexivity|exact Hf]|].
    split; [|exact Hg].
    pose proof (py_max_ge_r x (prev + xsize + Painter.padding)).
    unfold Painter.xsize0 in *; Lqa.lra.
Qed.

Lemma row_adjustment_witness :
  exists res adj,
    Painter.walk_row [("a", "A"); ("s", "S")] 0 2 0 0 1 0 0 [] [] [("a", 0); ("s", 1)] = Ok res /\
    snd res = [] ++ adj /\ row_formula 0 1 0 2 [("a", 0); ("s", 1)] adj /\ gapped 0 adj.
Proof.
  assert (Hok : is_ok (Painter.walk_row [("a", "A"); ("s", "S")] 0 2 0 0 1 0 0 [] []
                         [("a", 0); ("s", 1)]) = true) by reflexivity.
  destruct (Painter.walk_row _ _ _ _ _ _ _ _ _ _ _) as [res|e] eqn:E; [|discriminate Hok].
  destruct (row_adjustment [("a", "A"); ("s", "S")] 0 2 [("a", 0); ("s", 1)] 0 0 1 0 0 [] [] res
              (Qle_refl 1) E) as [adj H].
  exists res, adj; split; [reflexivity|exact H].
Defined.

(** ** C10 *)

Lemma shift_loop_found vk xm sm c pts p pts' :
  Painter.shift_loop vk xm sm c pts = Ok (Some p, pts') ->
  exists lower, In (lower, c) sm /\ Painter.find_nested_key vk lower = Some p.
Proof.
  induction sm as [|[l u] sm IH]; cbn; [discriminate|].
  assert (Hr : Painter.shift_loop vk xm sm c pts = Ok (Some p, pts') ->
               exists lower, ((l, u) = (lower, c) \/ In (lower, c) sm) /\
                             Painter.find_nested_key vk lower = Some p).
  { intros H; destruct (IH H) as (lw & H1 & H2); exists lw; auto. }
  destruct (String.eqb u c) eqn:Eu; [|exact Hr].
  apply String.eqb_eq in Eu; subst u.
  destruct (Painter.find_nested_key vk l) as [q|] eqn:Hq; [|exact Hr].
  destruct (Painter.find_nested_key vk (if Qlt_bool (fst q) (xm / 2) then "shift_r" else "shift_l"));
    [|discriminate].
  intros H; injection H as <- _. exists l; auto.
Qed.

Lemma home_distance_least home p d :
  Painter.home_distance home p = Ok d ->
  (forall h, In h (map snd home) -> (d <= euclid p h)%R) /\
  exists h, In h (map snd home) /\ d = euclid p h.
Proof.
  unfold Painter.home_distance.
  change (map (fun h => sqrt (Q2R ((fst p - fst h) * (fst p - fst h)
                                   + (snd p - snd h) * (snd p - snd h)))) (map snd home))
    with (map (euclid p) (map snd home)).
  destruct (map snd home) as [|h0 hs]; [discriminate|].
  intros H; simpl in H; injection H as <-.
  assert (Le : forall ds d0, (fold_left Rmin ds d0 <= d0)%R /\
                             (forall x, In x ds -> fold_left Rmin ds d0 <= x)%R).
  { induction ds as [|x ds IH]; intros d0; cbn; [split; [lra|intros y []]|].
    destruct (IH (Rmin d0 x)) as [H1 H2].
    pose proof (Rmin_l d0 x); pose proof (Rmin_r d0 x).
    split; [lra|]. intros y [<-|Hy]; [lra|exact (H2 y Hy)]. }
  assert (Mem : forall ds d0, fold_left Rmin ds d0 = d0 \/ In (fold_left Rmin ds d0) ds).
  { induction ds as [|x ds IH]; intros d0; cbn; [left; reflexivity|].
    destruct (IH (Rmin d0 x)) as [H|H]; [|right; right; exact H].
    rewrite H. unfold Rmin; destruct (Rle_dec d0 x); [left|right; left]; reflexivity. }
  destruct (Le (map (euclid p) hs) (euclid p h0)) as [L1 L2].
  split.
  - intros h [<-|Hh]; [exact L1|exact (L2 _ (in_map _ _ _ Hh))].
  - destruct (Mem (map (euclid p) hs) (euclid p h0)) as [M|M].
    + exists h0; split; [left; reflexivity|exact M].
    + apply in_map_iff in M as (h & Hh & Hin).
      exists h; split; [right; exact Hin|symmetry; exact Hh].
Qed.

Lemma euclid_pos p h :
  (0 < euclid p h)%R <-> ~ (fst p == fst h /\ snd p == snd h).
Proof.
  unfold euclid. rewrite Q2R_plus, !Q2R_mult, !Q2R_minus.
  split.
  - intros Hs [E1 E2]. apply Qeq_eqR in E1, E2. rewrite E1, E2 in Hs.
    replace ((Q2R (fst h) - Q2R (fst h)) * (Q2R (fst h) - Q2R (fst h))
             + (Q2R (snd h) - Q2R (snd h)) * (Q2R (snd h) - Q2R (snd h)))%R with 0%R in Hs by ring.
    rewrite sqrt_0 in Hs. lra.
  - intros Hn. apply sqrt_lt_R0.
    pose proof (Rle_0_sqr (Q2R (fst p) - Q2R (fst h))) as S1.
    pose proof (Rle_0_sqr (Q2R (snd p) - Q2R (snd h))) as S2.
    unfold Rsqr in S1, S2.
    destruct (Req_dec (Q2R (fst p)) (Q2R (fst h))) as [E1|E1].
    + destruct (Req_dec (Q2R (snd p)) (Q2R (snd h))) as [E2|E2].
      * exfalso; apply Hn; split; apply eqR_Qeq; assumption.
      * assert (0 < Rsqr (Q2R (snd p) - Q2R (snd h)))%R by (apply Rsqr_pos_lt; lra).
        unfold Rsqr in *; lra.
    + assert (0 < Rsqr (Q2R (fst p) - Q2R (fst h)))%R by (apply Rsqr_pos_lt; lra).
      unfold Rsqr in *; lra.
Qed.

(** C10: for every character [update_heatmap] resolves, directly (the
    character, after substitution, is a key of the visual keymap) or
    through the shift mapping (the base key of the first entry whose
    shifted character it is and whose base key is drawn), the amount added
    to the distance is the least Euclidean distance from the resolved key's
    adjusted position [p] (taken from the visual keymap) to the positions
    stored in the painter's home row, which [init] takes unchanged from the
    parser's raw declared positions; it is attained at one of them.  It is
    nonzero exactly when [p] coincides with none of those raw positions:
    so a home-row key whose adjusted position differs from every raw
    home-row position (as [a] in [layout_shifts], declared at (0,0) and
    drawn at (1.3,0)) adds a nonzero distance when pressed. *)
Theorem distance_from_adjusted_key_to_raw_home P pts dist ch pts' dist' :
  Painter.char_step P (pts, dist) ch = Ok (pts', dist') ->
  exists p d,
    (Painter.find_nested_key (Painter.visual_keymap P) (Painter.substitute ch) = Some p \/
     (Painter.find_nested_key (Painter.visual_keymap P) (Painter.substitute ch) = None /\
      exists lower, In (lower, Painter.substitute ch) (Painter.p_shift_mapping P) /\
        Painter.find_nested_key (Painter.visual_keymap P) lower = Some p)) /\
    dist' = (dist + d)%R /\
    (forall h, In h (map snd (Painter.p_home_row P)) -> (d <= euclid p h)%R) /\
    (exists h, In h (map snd (Painter.p_home_row P)) /\ d = euclid p h) /\
    ((0 < d)%R <-> forall h, In h (map snd (Painter.p_home_row P)) ->
                     ~ (fst p == fst h /\ snd p == snd h)).
Proof.
  unfold Painter.char_step.
  set (c := Painter.substitute ch).
  assert (Hd : forall p d, Painter.home_distance (Painter.p_home_row P) p = Ok d ->
     (forall h, In h (map snd (Painter.p_home_row P)) -> (d <= euclid p h)%R) /\
     (exists h, In h (map snd (Painter.p_home_row P)) /\ d = euclid p h) /\
     ((0 < d)%R <-> forall h, In h (map snd (Painter.p_home_row P)) ->
                      ~ (fst p == fst h /\ snd p == snd h))).
  { intros p d H. destruct (home_distance_least _ _ _ H) as [L (h0 & Hh0 & E0)].
    split; [exact L|]. split; [exists h0; auto|].
    split.
    - intros Hpos h Hh. apply euclid_pos. pose proof (L h Hh). lra.
    - intros Hn. rewrite E0. apply euclid_pos, Hn, Hh0. }
  destruct (Painter.find_nested_key _ c) as [p|] eqn:Hf.
  - cbn [bind]. destruct (Painter.home_distance _ p) as [d|] eqn:Ed; cbn [bind]; [|discriminate].
    intros H; injection H as _ <-.
    exists p, d. split; [left; reflexivity|]. split; [reflexivity|exact (Hd _ _ Ed)].
  - destruct (Painter.shift_loop _ _ _ _ _) as [[o q]|] eqn:Hs; cbn [bind]; [|discriminate].
    destruct o as [p|]; [|discriminate].
    destruct (Painter.home_distance _ p) as [d|] eqn:Ed; cbn [bind]; [|discriminate].
    intros H; injection H as _ <-.
    exists p, d. split; [right; split; [reflexivity|exact (shift_loop_found _ _ _ _ _ _ _ Hs)]|].
    split; [reflexivity|exact (Hd _ _ Ed)].
Qed.

Lemma distance_from_adjusted_key_to_raw_home_witness :
  exists pts' dist', Painter.char_step painter_shifts ([], 0%R) "a" = Ok (pts', dist') /\
    Painter.p_home_row painter_shifts = [("a", (0, 0)); ("s", (1, 0))] /\ (0 < dist')%R.
Proof.
  assert (Hok : is_ok (Painter.char_step painter_shifts ([], 0%R) "a") = true) by reflexivity.
  destruct (Painter.char_step painter_shifts ([], 0%R) "a") as [[pts' dist']|e] eqn:E;
    [|discriminate Hok].
  exists pts', dist'. split; [reflexivity|]. split; [reflexivity|].
  destruct (distance_from_adjusted_key_to_raw_home painter_shifts [] 0%R "a" pts' dist' E)
    as (p & d & Hp & -> & _ & _ & Hpos).
  assert (Ep : p = (13 # 10, 0)).
  { destruct Hp as [Hp|[Hp _]]; [|discriminate Hp].
    assert (Hv : Painter.find_nested_key (Painter.visual_keymap painter_shifts)
                   (Painter.substitute "a") = Some (13 # 10, 0)) by reflexivity.
    rewrite Hv in Hp; injection Hp as <-; reflexivity. }
  subst p.
  assert (0 < d)%R.
  { apply Hpos. change (Painter.p_home_row painter_shifts) with [("a", (0, 0)); ("s", (1, 0))].
    cbn [map snd fst]. intros h [<-|[<-|[]]] [E1 E2]; cbn in E1; discriminate E1. }
  lra.
Defined.

(** ** C7 *)

Lemma Int_part_between (r : R) (z : Z) :
  (IZR z <= r < IZR z + 1)%R -> Int_part r = z.
Proof. intros [H1 H2]; symmetry; apply Int_part_spec; lra. Qed.

Lemma sqrt_between (a : R) (k : Z) :
  (0 <= IZR k)%R -> (IZR k * IZR k <= a < (IZR k + 1) * (IZR k + 1))%R ->
  (IZR k <= sqrt a < IZR k + 1)%R.
Proof.
  intros Hk [H1 H2]; split.
  - rewrite <- (sqrt_square (IZR k)) by exact Hk. apply sqrt_le_1_alt, H1.
  - rewrite <- (sqrt_square (IZR k + 1)) by lra. apply sqrt_lt_1_alt; nra.
Qed.

Lemma axis_samples_sqrt (m : R) :
  Painter.axis_samples m Painter.mesh_granularity = Int_part (sqrt (1000 * m)).
Proof.
  unfold Painter.axis_samples, Painter.mesh_granularity.
  rewrite Rabs_right by (apply Rle_ge, sqrt_pos). rewrite Rmult_comm; reflexivity.
Qed.

(** C7, refuted: for the painter of [layout_shifts] ([xmax = 7.8],
    [ymax = 2.3]) the grid has 88 x 47 = 4136 cells, less than a quarter
    of [1000 * xmax * ymax = 17940]. *)
Lemma grid_cells_far_below_g_xmax_ymax :
  Painter.grid_shape (Q2R (Painter.xmax painter_shifts)) (Q2R (Painter.ymax painter_shifts))
    Painter.mesh_granularity = (88%Z, 47%Z) /\
  (4 * IZR (88 * 47) < Painter.mesh_granularity * Q2R (Painter.xmax painter_shifts)
                                                * Q2R (Painter.ymax painter_shifts))%R.
Proof.
  assert (Hx : Q2R (Painter.xmax painter_shifts) = (78 / 10)%R)
    by (change (Painter.xmax painter_shifts) with (390000 # 50000); unfold Q2R; simpl; field).
  assert (Hy : Q2R (Painter.ymax painter_shifts) = (23 / 10)%R)
    by (change (Painter.ymax painter_shifts) with (23 # 10); unfold Q2R; simpl; field).
  rewrite Hx, Hy. unfold Painter.grid_shape; rewrite !axis_samples_sqrt.
  split.
  - f_equal; apply Int_part_between, sqrt_between; lra.
  - unfold Painter.mesh_granularity. rewrite mult_IZR. lra.
Qed.

(** C7, as the code does it: with [mesh_granularity = 1000], each axis of
    the grid has [floor(sqrt(1000 * extent))] samples from [-1] to the
    extent inclusive, so the grid has about [1000 * sqrt(xmax * ymax)]
    cells (between the product of the floors and the product of the floors
    plus one). *)
Theorem grid_shape_sqrt (xm ym : R) :
  (0 <= xm)%R -> (0 <= ym)%R ->
  Painter.grid_shape xm ym Painter.mesh_granularity =
    (Int_part (sqrt (1000 * xm)), Int_part (sqrt (1000 * ym))) /\
  (IZR (Int_part (sqrt (1000 * xm))) * IZR (Int_part (sqrt (1000 * ym))) <= 1000 * sqrt (xm * ym))%R /\
  (1000 * sqrt (xm * ym) < (IZR (Int_part (sqrt (1000 * xm))) + 1) * (IZR (Int_part (sqrt (1000 * ym))) + 1))%R /\
  (forall m n, (2 <= n)%Z ->
     Painter.axis_point m n 0 = (-1)%R /\ Painter.axis_point m n (Z.to_nat (n - 1)) = m).
Proof.
  intros Hx Hy.
  assert (Hs : (sqrt (1000 * xm) * sqrt (1000 * ym) = 1000 * sqrt (xm * ym))%R).
  { rewrite <- sqrt_mult by lra.
    replace (1000 * xm * (1000 * ym))%R with ((1000 * 1000) * (xm * ym))%R by ring.
    rewrite sqrt_mult by nra. rewrite sqrt_square by lra. reflexivity. }
  pose proof (base_Int_part (sqrt (1000 * xm))) as [Ha1 Ha2].
  pose proof (base_Int_part (sqrt (1000 * ym))) as [Hb1 Hb2].
  pose proof (sqrt_pos (1000 * xm)). pose proof (sqrt_pos (1000 * ym)).
  assert (Hna : (0 <= IZR (Int_part (sqrt (1000 * xm))))%R).
  { apply IZR_le. apply Z.lt_pred_le. apply lt_IZR. change (Z.pred 0) with (-1)%Z. lra. }
  assert (Hnb : (0 <= IZR (Int_part (sqrt (1000 * ym))))%R).
  { apply IZR_le. apply Z.lt_pred_le. apply lt_IZR. change (Z.pred 0) with (-1)%Z. lra. }
  split; [unfold Painter.grid_shape; rewrite !axis_samples_sqrt; reflexivity|].
  split; [rewrite <- Hs; apply Rmult_le_compat; assumption|].
  split; [rewrite <- Hs; apply Rmult_le_0_lt_compat; lra|].
  intros m n Hn; unfold Painter.axis_point; split.
  - simpl; field. apply IZR_le in Hn; lra.
  - rewrite INR_IZR_INZ, Z2Nat.id by lia. rewrite minus_IZR.
    apply IZR_le in Hn. field. lra.
Qed.

Lemma grid_shape_sqrt_witness :
  (0 <= 78 / 10)%R /\ (0 <= 23 / 10)%R /\
  Painter.grid_shape (78 / 10) (23 / 10) Painter.mesh_granularity =
    (Int_part (sqrt (1000 * (78 / 10))), Int_part (sqrt (1000 * (23 / 10)))).
Proof.
  split; [lra|]. split; [lra|].
  apply (grid_shape_sqrt (78 / 10) (23 / 10)); lra.
Defined.

(* ================================================================== *)
(** * Further properties of the code *)

(** ** Dicts *)

Section DictFacts.
Context {V : Type}.

Lemma dict_get_set_same (k : string) (v : V) d : dict_get k (dict_set k v d) = Some v.
Proof.
  induction d as [|[k' v'] d IH]; cbn; [rewrite String.eqb_refl; reflexivity|].
  destruct (String.eqb k k') eqn:E; cbn; rewrite ?E; [reflexivity|exact IH].
Qed.

Lemma dict_get_set_other (k k' : string) (v : V) d :
  k' <> k -> dict_get k' (dict_set k v d) = dict_get k' d.
Proof.
  intros Hne. induction d as [|[k0 v0] d IH]; cbn.
  - apply String.eqb_neq in Hne; rewrite Hne; reflexivity.
  - destruct (String.eqb k k0) eqn:E; cbn.
    + apply String.eqb_eq in E; subst k0.
      apply String.eqb_neq in Hne; rewrite Hne; reflexivity.
    + destruct (String.eqb k' k0); [reflexivity|exact IH].
Qed.

Lemma dict_set_keys_in (k x : string) (v : V) d :
  In x (map fst (dict_set k v d)) <-> x = k \/ In x (map fst d).
Proof.
  induction d as [|[k0 v0] d IH]; cbn; [split; intros H; intuition congruence|].
  destruct (String.eqb k k0) eqn:E; cbn.
  - apply String.eqb_eq in E; subst k0; split; intros H; intuition congruence.
  - rewrite IH; split; intros H; intuition congruence.
Qed.

Lemma dict_set_nodup (k : string) (v : V) d :
  NoDup (map fst d) -> NoDup (map fst (dict_set k v d)).
Proof.
  induction d as [|[k0 v0] d IH]; cbn; intros H.
  - constructor; [intros []|constructor].
  - inversion H as [|? ? Hn Hd]; subst.
    destruct (String.eqb k k0) eqn:E; cbn; constructor; try assumption.
    + rewrite dict_set_keys_in. intros [->|Hin]; [|contradiction].
      apply Hn. apply String.eqb_neq in E. exfalso; apply E; reflexivity.
    + apply IH, Hd.
Qed.

Lemma dict_update_nodup (d e : list (string * V)) :
  NoDup (map fst d) -> NoDup (map fst (dict_update d e)).
Proof.
  unfold dict_update. revert d.
  induction e as [|[k v] e IH]; cbn; intros d H; [exact H|].
  apply IH, dict_set_nodup, H.
Qed.

Lemma dict_get_set_some (k k' : string) (v : V) d :
  dict_get k d <> None -> dict_get k (dict_set k' v d) <> None.
Proof.
  destruct (String.eqb k k') eqn:E.
  - apply String.eqb_eq in E; subst; rewrite dict_get_set_same; discriminate.
  - apply String.eqb_neq in E; rewrite dict_get_set_other by (intro; apply E; subst; reflexivity).
    exact (fun H => H).
Qed.

End DictFacts.

(** ** Validation of one key ([__generate_keylist]) *)

(** An accepted key has its count (under its lowercase form) raised by
    one, from 0 or 1.  With an [upper], the shift mapping sends the key to
    it (under the lowercase name for a special key, else under [lower] as
    written) and [lower] is returned as written; without one, [lower] is
    returned lowercased and mapped to its QWERTY default. *)
Theorem generate_keylist_records_shift cc sm k lk cc' sm' :
  Parser.generate_keylist cc sm k = Ok (lk, cc', sm') ->
  exists c n, key_lower k = Some c /\ dict_get (py_lower c) cc = Some n /\ (n <= 1)%nat /\
    dict_get (py_lower c) cc' = Some (S n) /\
    match key_upper k with
    | Some u => lk = c /\
        dict_get (if str_in c Parser.special_keys then py_lower c else c) sm' = Some u
    | None => lk = py_lower c /\ dict_get lk sm' = dict_get lk Parser.default_shift_mapping /\
        dict_get lk sm' <> None
    end.
Proof.
  unfold Parser.generate_keylist.
  destruct (key_lower k) as [c|]; [|discriminate].
  destruct (dict_get (py_lower c) cc) as [n|] eqn:Hn; [|discriminate].
  destruct (1 <? n)%nat eqn:Hlt; [discriminate|]. apply Nat.ltb_ge in Hlt.
  intros H; exists c, n. split; [reflexivity|]. split; [exact Hn|]. split; [exact Hlt|].
  destruct (key_upper k) as [u|].
  - destruct (str_contains _ _); [discriminate|].
    destruct (str_in c Parser.special_keys); injection H as <- <- <-;
      (split; [apply dict_get_set_same|]); split; [reflexivity| apply dict_get_set_same|reflexivity|apply dict_get_set_same].
  - destruct (str_contains _ _); [discriminate|].
    destruct (dict_get (py_lower c) Parser.default_shift_mapping) as [d|] eqn:Hd; [|discriminate].
    injection H as <- <- <-.
    split; [apply dict_get_set_same|].
    split; [reflexivity|]. rewrite dict_get_set_same, Hd. split; [reflexivity|discriminate].
Qed.

Lemma generate_keylist_records_shift_witness :
  exists cc',
    Parser.generate_keylist Parser.initial_char_count [] (mkKey (Some "1") None (at_xy 0 0))
      = Ok ("1", cc', [("1", "!")]) /\
    dict_get "1" [("1", "!")] = dict_get "1" Parser.default_shift_mapping.
Proof.
  eexists. split; [reflexivity|].
  destruct (generate_keylist_records_shift Parser.initial_char_count []
              (mkKey (Some "1") None (at_xy 0 0)) "1" _ [("1", "!")] eq_refl)
    as (c & n & _ & _ & _ & _ & Hm).
  simpl in Hm. destruct Hm as (_ & H & _). exact H.
Defined.

(** ** The keymap ([__generate_keymap]) *)

Lemma dict_get_set_cases {V} (k x : string) (v : V) d :
  dict_get x (dict_set k v d) = Some v \/ dict_get x (dict_set k v d) = dict_get x d.
Proof.
  destruct (String.eqb x k) eqn:E.
  - apply String.eqb_eq in E; subst; left; apply dict_get_set_same.
  - apply String.eqb_neq in E; right; apply dict_get_set_other; congruence.
Qed.

Lemma generate_keylist_count cc sm k lk cc' sm' :
  Parser.generate_keylist cc sm k = Ok (lk, cc', sm') ->
  exists c n, dict_get (py_lower c) cc = Some n /\ (n <= 1)%nat /\
              cc' = dict_set (py_lower c) (S n) cc.
Proof.
  unfold Parser.generate_keylist.
  destruct (key_lower k) as [c|]; [|discriminate].
  destruct (dict_get (py_lower c) cc) as [n|] eqn:Hn; [|discriminate].
  destruct (1 <? n)%nat eqn:Hlt; [discriminate|]. apply Nat.ltb_ge in Hlt.
  intros H; exists c, n; split; [exact Hn|]; split; [exact Hlt|].
  destruct (key_upper k); [destruct (str_contains _ _); [discriminate|];
    destruct (str_in _ _); injection H; auto|].
  destruct (str_contains _ _); [discriminate|].
  destruct (dict_get _ Parser.default_shift_mapping); [|discriminate].
  injection H; auto.
Qed.

Lemma generate_keylist_bounded cc sm k lk cc' sm' :
  Parser.generate_keylist cc sm k = Ok (lk, cc', sm') ->
  counts_bounded cc -> counts_bounded cc'.
Proof.
  intros H Hb c m Hm.
  destruct (generate_keylist_count _ _ _ _ _ _ H) as (c0 & n & _ & Hn & ->).
  destruct (dict_get_set_cases (py_lower c0) c (S n) cc) as [E|E]; rewrite E in Hm.
  - injection Hm as <-; lia.
  - exact (Hb _ _ Hm).
Qed.

Lemma keys_loop_inv cc sm rm ks cc' sm' rm' :
  Parser.keys_loop cc sm rm ks = Ok (cc', sm', rm') ->
  counts_bounded cc -> NoDup (map fst rm) ->
  counts_bounded cc' /\ NoDup (map fst rm').
Proof.
  revert cc sm rm. induction ks as [|k ks IH]; intros cc sm rm H Hb Hd.
  - cbn in H; injection H as <- <- <-; auto.
  - cbn [Parser.keys_loop] in H.
    destruct (Parser.generate_keylist cc sm k) as [[[lk cc1] sm1]|e] eqn:G; cbn [bind] in H;
      [|discriminate H].
    destruct (Parser.key_position k) as [p|e]; cbn [bind] in H; [|discriminate H].
    apply (IH _ _ _ H); [exact (generate_keylist_bounded _ _ _ _ _ _ G Hb)|].
    apply dict_set_nodup, Hd.
Qed.

Lemma rows_loop_inv st rows st' :
  Parser.rows_loop st rows = Ok st' -> pstate_inv st -> pstate_inv st'.
Proof.
  revert st. induction rows as [|r rows IH]; intros st H Hi.
  - cbn in H; injection H as <-; exact Hi.
  - cbn [Parser.rows_loop] in H.
    destruct (Parser.keys_loop _ _ [] _) as [[[cc sm] rm]|e] eqn:K; cbn [bind] in H;
      [|discriminate H].
    destruct Hi as (Hk & Hh & Hb).
    destruct (keys_loop_inv _ _ _ _ _ _ _ K Hb (NoDup_nil _)) as [Hb' Hrm].
    destruct (row_id r) as [rid|]; [|discriminate H].
    apply (IH _ H). unfold pstate_inv; cbn.
    split; [|split; [|exact Hb']].
    + destruct (dict_get rid (Parser.keymap st)); apply dict_set_nodup, Hk.
    + destruct (String.eqb _ _); [apply dict_update_nodup|]; exact Hh.
Qed.

Lemma rows_loop_no_home st rows st' :
  Parser.rows_loop st rows = Ok st' -> Parser.home_row st = [] ->
  (forall r rid, In r rows -> row_id r = Some rid -> String.eqb (py_lower rid) "home" = false) ->
  Parser.home_row st' = [].
Proof.
  revert st. induction rows as [|r rows IH]; intros st H Hh Hn.
  - cbn in H; injection H as <-; exact Hh.
  - cbn [Parser.rows_loop] in H.
    destruct (Parser.keys_loop _ _ [] _) as [[[cc sm] rm]|e]; cbn [bind] in H; [|discriminate H].
    destruct (row_id r) as [rid|] eqn:R; [|discriminate H].
    apply (IH _ H).
    + cbn. rewrite (Hn r rid (or_introl eq_refl) R). exact Hh.
    + intros r' rid' Hin; apply Hn; right; exact Hin.
Qed.

(** A layout that parses has a non-empty home row, no row id twice in the
    keymap, no character twice in the home row, and no character counted
    more than twice. *)
Theorem parse_ok_invariants kbd st :
  Parser.parse kbd = Ok st ->
  Parser.home_row st <> [] /\
  NoDup (map fst (Parser.keymap st)) /\ NoDup (map fst (Parser.home_row st)) /\
  (forall c n, dict_get c (Parser.char_count st) = Some n -> (n <= 2)%nat).
Proof.
  unfold Parser.parse.
  destruct (Parser.rows_loop _ kbd) as [st0|e] eqn:R; cbn [bind]; [|discriminate].
  assert (Hi : pstate_inv (Parser.mkPState Parser.initial_char_count [] [] [])).
  { split; [constructor|split; [constructor|]].
    intros c n Hc. cbn [Parser.char_count] in Hc.
    assert (Hz : forall d : list (string * nat), forallb (fun kv => Nat.eqb (snd kv) 0) d = true ->
                 dict_get c d = Some n -> n = 0%nat).
    { induction d as [|[k v] d IHd]; cbn; [discriminate|].
      intros Hf; apply andb_prop in Hf as [H0 Hf]; apply Nat.eqb_eq in H0.
      destruct (String.eqb c k); [intros Hs; injection Hs; lia|exact (IHd Hf)]. }
    rewrite (Hz Parser.initial_char_count eq_refl Hc); lia. }
  destruct (rows_loop_inv _ _ _ R Hi) as (Hk & Hh & Hb).
  destruct (Parser.home_row st0) eqn:E; [discriminate|].
  intros Hs; injection Hs as <-.
  split; [rewrite E; discriminate|rewrite E; auto].
Qed.

Lemma parse_ok_invariants_witness :
  exists st, Parser.parse layout_shifts = Ok st /\ Parser.home_row st <> [].
Proof.
  eexists. split; [reflexivity|].
  exact (proj1 (parse_ok_invariants layout_shifts _ eq_refl)).
Defined.

(** [__generate_keymap] fails unless some row's id, lowercased, is
    "home": without one, no layout parses. *)
Theorem parse_needs_home_row kbd :
  (forall r rid, In r kbd -> row_id r = Some rid -> String.eqb (py_lower rid) "home" = false) ->
  forall st, Parser.parse kbd <> Ok st.
Proof.
  intros Hn st. unfold Parser.parse.
  destruct (Parser.rows_loop _ kbd) as [st0|e] eqn:R; cbn [bind]; [|discriminate].
  rewrite (rows_loop_no_home _ _ _ R eq_refl Hn). discriminate.
Qed.

Lemma parse_needs_home_row_witness :
  is_ok (Parser.parse [mkRow (Some "top") [mkKey (Some "a") None (at_xy 0 0)]]) = false.
Proof.
  destruct (Parser.parse [mkRow (Some "top") [mkKey (Some "a") None (at_xy 0 0)]]) as [st|e] eqn:E;
    [exfalso|reflexivity].
  refine (parse_needs_home_row _ _ st E).
  intros r rid [<-|[]] Hr; injection Hr as <-; reflexivity.
Defined.

(** ** The visual keymap ([__draw_keys]) *)

Lemma fold_left_keep {A B} (P : B -> Prop) (f : B -> A -> B) :
  (forall b a, P b -> P (f b a)) -> forall l acc, P acc -> P (fold_left f l acc).
Proof. intros Hk l; induction l as [|a l IH]; cbn; auto. Qed.

Lemma fold_left_hit {A B} (P : B -> Prop) (f : B -> A -> B) (a : A) :
  (forall b a', P b -> P (f b a')) -> (forall b, P (f b a)) ->
  forall l acc, In a l -> P (fold_left f l acc).
Proof.
  intros Hk Ha l; induction l as [|a' l IH]; intros acc Hin; [destruct Hin|].
  destruct Hin as [<-|Hin]; cbn; [apply fold_left_keep; auto|apply IH, Hin].
Qed.

Lemma dict_set_in {V} (k c : string) (v p : V) d :
  In (c, p) (dict_set k v d) -> (c, p) = (k, v) \/ In (c, p) d.
Proof.
  induction d as [|[k' v'] d IH]; cbn; [intros [H|[]]; left; congruence|].
  destruct (String.eqb k k') eqn:E; cbn.
  - apply String.eqb_eq in E; subst k'.
    intros [H|H]; [left; congruence|right; right; exact H].
  - intros [H|H]; [right; left; exact H|].
    destruct (IH H); auto.
Qed.

Lemma group_add_keep g y e c x yy :
  grouped g c x yy -> grouped (Painter.group_add y e g) c x yy.
Proof.
  intros (y' & l & Hin & Hc & Hy). induction g as [|[y0 l0] g IH]; [destruct Hin|].
  cbn. destruct (Qeq_bool y y0).
  - destruct Hin as [E|Hin].
    + injection E as -> ->. exists y', (l ++ [e]).
      split; [left; reflexivity|split; [apply in_or_app; left; exact Hc|exact Hy]].
    + exists y', l. split; [right; exact Hin|auto].
  - destruct Hin as [E|Hin].
    + exists y', l. split; [left; exact E|auto].
    + destruct (IH Hin) as (y1 & l1 & H1 & H2 & H3). exists y1, l1. split; [right; exact H1|auto].
Qed.

Lemma group_add_new g y e : grouped (Painter.group_add y e g) (fst e) (snd e) y.
Proof.
  induction g as [|[y0 l0] g IH]; cbn.
  - exists y, [e]. destruct e; split; [left; reflexivity|split; [left; reflexivity|apply Qeq_refl]].
  - destruct (Qeq_bool y y0) eqn:E.
    + exists y0, (l0 ++ [e]). split; [left; reflexivity|].
      split; [apply in_or_app; right; destruct e; left; reflexivity|apply Qeq_bool_iff, E].
    + destruct IH as (y1 & l1 & H1 & H2 & H3). exists y1, l1. split; [right; exact H1|auto].
Qed.

Lemma ordered_keymap_has km rid row c p :
  In (rid, row) km -> In (c, p) row -> grouped (Painter.ordered_keymap km) c (fst p) (snd p).
Proof.
  intros Hr Hc. unfold Painter.ordered_keymap.
  apply (fold_left_hit (fun g => grouped g c (fst p) (snd p)) _ (rid, row)); [| |exact Hr].
  - intros g r Hg. apply fold_left_keep; [|exact Hg].
    intros g' ce H. apply group_add_keep, H.
  - intros g. cbn [snd].
    apply (fold_left_hit (fun g => grouped g c (fst p) (snd p)) _ (c, p)); [| |exact Hc].
    + intros g' ce H. apply group_add_keep, H.
    + intros g'. exact (group_add_new g' (snd p) (c, fst p)).
Qed.

Lemma insert_by_x_perm e l : Permutation (e :: l) (Painter.insert_by_x e l).
Proof.
  induction l as [|h t IH]; cbn; [reflexivity|].
  destruct (Qlt_bool (snd e) (snd h)); [reflexivity|].
  eapply perm_trans; [apply perm_swap|]. apply perm_skip, IH.
Qed.

Lemma sort_by_x_perm l : Permutation l (Painter.sort_by_x l).
Proof.
  unfold Painter.sort_by_x.
  assert (G : forall acc, Permutation (acc ++ l) (fold_left (fun acc e => Painter.insert_by_x e acc) l acc)).
  { induction l as [|e l IH]; intros acc; cbn; [rewrite app_nil_r; reflexivity|].
    eapply perm_trans; [|apply IH].
    eapply perm_trans; [apply Permutation_sym, Permutation_middle|].
    change (e :: acc ++ l) with ((e :: acc) ++ l).
    apply Permutation_app_tail, insert_by_x_perm. }
  exact (G []).
Qed.

Lemma not_qlt_bool_le a b : Qlt_bool a b = false -> b <= a.
Proof. unfold Qlt_bool; destruct (Qle_bool b a) eqn:E; [intros _; apply Qle_bool_iff, E|discriminate]. Qed.

Lemma qlt_bool_lt a b : Qlt_bool a b = true -> a < b.
Proof.
  unfold Qlt_bool; destruct (Qle_bool b a) eqn:E; [discriminate|intros _].
  apply Qnot_le_lt; intros H; apply Qle_bool_iff in H; congruence.
Qed.

Lemma insert_by_x_hdrel h e l :
  HdRel x_le h l -> x_le h e -> HdRel x_le h (Painter.insert_by_x e l).
Proof.
  intros Hh He; destruct l as [|h' t]; cbn; [constructor; exact He|].
  destruct (Qlt_bool (snd e) (snd h')); constructor; [exact He|inversion Hh; assumption].
Qed.

Lemma insert_by_x_sorted e l : Sorted x_le l -> Sorted x_le (Painter.insert_by_x e l).
Proof.
  induction l as [|h t IH]; intros Hs; cbn; [repeat constructor|].
  destruct (Qlt_bool (snd e) (snd h)) eqn:E.
  - constructor; [exact Hs|constructor; apply Qlt_le_weak, qlt_bool_lt, E].
  - inversion Hs as [|? ? Ht Hh]; subst.
    constructor; [apply IH, Ht|apply insert_by_x_hdrel; [exact Hh|apply not_qlt_bool_le, E]].
Qed.

(** The sort of [__draw_keys] ([lst.sort(key=lambda t: t[1])]) returns a
    rearrangement of its row, ordered by x. *)
Theorem sort_by_x_sorted_perm l :
  Sorted x_le (Painter.sort_by_x l) /\ Permutation l (Painter.sort_by_x l).
Proof.
  split; [|apply sort_by_x_perm].
  unfold Painter.sort_by_x.
  assert (G : forall acc, Sorted x_le acc ->
              Sorted x_le (fold_left (fun acc e => Painter.insert_by_x e acc) l acc)).
  { induction l as [|e l IH]; intros acc Ha; cbn; [exact Ha|apply IH, insert_by_x_sorted, Ha]. }
  apply G; constructor.
Qed.

Lemma in_box_mono y xm ym xm' ym' vrow :
  xm <= xm' -> ym <= ym' -> in_box y xm ym vrow -> in_box y xm' ym' vrow.
Proof.
  intros Hx Hy Hb c p Hin; destruct (Hb c p Hin) as (H1 & H2 & H3).
  split; [exact H1|split; Lqa.lra].
Qed.

Lemma qlt_if_max a b : a <= (if Qlt_bool a b then b else a) /\ b <= (if Qlt_bool a b then b else a).
Proof.
  destruct (Qlt_bool a b) eqn:E.
  - apply qlt_bool_lt in E; split; Lqa.lra.
  - apply not_qlt_bool_le in E; split; Lqa.lra.
Qed.

Lemma qlt_if_pad a b c : 0 <= c ->
  a <= (if Qlt_bool a b then b + c else a) /\ b <= (if Qlt_bool a b then b + c else a).
Proof.
  intros Hc; destruct (Qlt_bool a b) eqn:E.
  - apply qlt_bool_lt in E; split; Lqa.lra.
  - apply not_qlt_bool_le in E; split; Lqa.lra.
Qed.

Lemma walk_row_facts sm y n lst : forall count prev_x xsize xmax ymax vrow xdata xs' xm' ym' vrow' xd',
  Painter.walk_row sm y n count prev_x xsize xmax ymax vrow xdata lst = Ok (xs', xm', ym', vrow', xd') ->
  (forall e, In e lst -> dict_get (py_lower (fst e)) sm <> None) /\
  (forall c, dict_get c vrow <> None -> dict_get c vrow' <> None) /\
  (forall e, In e lst -> dict_get (fst e) vrow' <> None) /\
  xmax <= xm' /\ ymax <= ym' /\
  (in_box y xmax ymax vrow -> in_box y xm' ym' vrow').
Proof.
  induction lst as [|[ch x] t IH]; intros count prev_x xsize xmax ymax vrow xdata xs' xm' ym' vrow' xd' H.
  - cbn in H; injection H as <- <- <- <- <-.
    split; [intros e []|]. split; [auto|]. split; [intros e []|].
    split; [apply Qle_refl|]. split; [apply Qle_refl|]. auto.
  - cbn [Painter.walk_row] in H.
    destruct (dict_get (py_lower ch) sm) as [s|] eqn:Hs; [|discriminate H].
    destruct (IH _ _ _ _ _ _ _ _ _ _ _ _ H) as (H1 & H2 & H3 & H4 & H5 & H6).
    set (ax := py_max x (prev_x + xsize + Painter.padding)) in *.
    set (bw := Painter.box_width count n) in *.
    pose proof (box_width_ge_1 count n) as Hbw; fold bw in Hbw.
    destruct (qlt_if_max xmax (ax + bw + Painter.padding)) as [Mx1 Mx2].
    assert (Hp : 0 <= Painter.padding) by (unfold Painter.padding; Lqa.lra).
    destruct (qlt_if_pad ymax (y + Painter.ysize0) Painter.padding Hp) as [My1 My2].
    set (xm1 := if Qlt_bool xmax (ax + bw + Painter.padding) then _ else _) in *.
    set (ym1 := if Qlt_bool ymax (y + Painter.ysize0) then _ else _) in *.
    split; [intros e [<-|He]; [cbn; rewrite Hs; discriminate|apply H1, He]|].
    split; [intros c Hc; apply H2, dict_get_set_some, Hc|].
    split; [intros e [<-|He]; [apply H2; cbn; rewrite dict_get_set_same; discriminate|apply H3, He]|].
    split; [eapply Qle_trans; [exact Mx1|exact H4]|].
    split; [eapply Qle_trans; [exact My1|exact H5]|].
    intros Hb; apply H6. intros c p Hin. apply dict_set_in in Hin as [E|Hin].
    + injection E as -> ->. cbn [fst snd]. split; [reflexivity|].
      unfold Painter.xsize0 in *; split; Lqa.lra.
    + destruct (Hb c p Hin) as (B1 & B2 & B3). split; [exact B1|split; Lqa.lra].
Qed.

Lemma draw_groups_facts sm groups : forall xsize xmax ymax vk xm ym vk',
  Painter.draw_groups sm xsize xmax ymax vk groups = Ok (xm, ym, vk') ->
  (exists rest, vk' = vk ++ rest) /\
  (forall y lst e, In (y, lst) groups -> In e lst ->
     dict_get (py_lower (fst e)) sm <> None /\
     exists row, In (y, row) vk' /\ dict_get (fst e) row <> None) /\
  xmax <= xm /\ ymax <= ym /\
  ((forall y row, In (y, row) vk -> in_box y xmax ymax row) ->
   forall y row, In (y, row) vk' -> in_box y xm ym row).
Proof.
  induction groups as [|[y lst] gs IH]; intros xsize xmax ymax vk xm ym vk' H.
  - cbn in H; injection H as <- <- <-.
    split; [exists []; rewrite app_nil_r; reflexivity|].
    split; [intros y lst e []|]. split; [apply Qle_refl|]. split; [apply Qle_refl|]. auto.
  - cbn [Painter.draw_groups] in H.
    pose proof (sort_by_x_perm lst) as Hperm.
    destruct (Painter.sort_by_x lst) as [|[c0 x0] l0] eqn:S; [discriminate H|].
    destruct (Painter.walk_row _ _ _ _ _ _ _ _ _ _ _) as [[[[[xs1 xm1] ym1] vrow] xd]|e] eqn:W;
      cbn [bind] in H; [|discriminate H].
    destruct (walk_row_facts _ _ _ _ _ _ _ _ _ _ _ _ _ _ _ _ W) as (W1 & W2 & W3 & W4 & W5 & W6).
    destruct (IH _ _ _ _ _ _ _ H) as ([rest Hr] & D2 & D3 & D4 & D5).
    split; [exists ((y, vrow) :: rest); rewrite Hr, <- app_assoc; reflexivity|].
    split.
    + intros y' lst' e [E|Hin] He.
      * injection E as <- <-. apply (Permutation_in _ Hperm) in He.
        split; [apply W1, He|]. exists vrow. split; [|apply W3, He].
        rewrite Hr. apply in_or_app; left. apply in_or_app; right; left; reflexivity.
      * exact (D2 _ _ _ Hin He).
    + split; [eapply Qle_trans; [exact W4|exact D3]|].
      split; [eapply Qle_trans; [exact W5|exact D4]|].
      intros Hb. apply D5. intros y' row Hin.
      apply in_app_or in Hin as [Hin|[E|[]]].
      * exact (in_box_mono _ _ _ _ _ _ W4 W5 (Hb _ _ Hin)).
      * injection E as <- <-. apply W6. intros c p [].
Qed.

Lemma find_nested_key_in vk y row c :
  In (y, row) vk -> dict_get c row <> None -> Painter.find_nested_key vk c <> None.
Proof.
  induction vk as [|[y0 row0] vk IH]; [intros []|].
  intros [E|Hin] Hc; cbn.
  - injection E as -> ->. destruct (dict_get c row); [discriminate|contradiction].
  - destruct (dict_get c row0); [discriminate|apply IH, Hc; exact Hin].
Qed.

(** Every key of the keymap gets an entry in the visual keymap built by
    [__draw_keys]: [find_nested_key] finds it. *)
Theorem draw_keys_places_every_key km sm xm ym vk :
  Painter.draw_keys km sm = Ok (xm, ym, vk) ->
  forall rid row c p, In (rid, row) km -> In (c, p) row -> Painter.find_nested_key vk c <> None.
Proof.
  intros H rid row c p Hr Hc.
  destruct (ordered_keymap_has _ _ _ _ _ Hr Hc) as (y' & l & Hg & Hl & _).
  destruct (draw_groups_facts _ _ _ _ _ _ _ _ _ H) as (_ & D2 & _).
  destruct (D2 _ _ _ Hg Hl) as (_ & row' & Hin & Hd).
  exact (find_nested_key_in _ _ _ _ Hin Hd).
Qed.

Lemma draw_keys_places_every_key_witness :
  exists xm ym vk,
    Painter.draw_keys [("home", [("a", (0, 0)); ("s", (1, 0))])] [("a", "A"); ("s", "S")]
      = Ok (xm, ym, vk) /\ Painter.find_nested_key vk "s" <> None.
Proof.
  do 3 eexists. split; [reflexivity|].
  eapply (draw_keys_places_every_key [("home", [("a", (0, 0)); ("s", (1, 0))])]
            [("a", "A"); ("s", "S")]).
  - reflexivity.
  - left; reflexivity.
  - right; left; reflexivity.
Defined.

(** [__draw_keys] raises [KeyError] unless every key has a shift mapping
    (under its lowercase form): when it completes, each has one. *)
Theorem draw_keys_requires_shift_mapping km sm xm ym vk :
  Painter.draw_keys km sm = Ok (xm, ym, vk) ->
  forall rid row c p, In (rid, row) km -> In (c, p) row -> dict_get (py_lower c) sm <> None.
Proof.
  intros H rid row c p Hr Hc.
  destruct (ordered_keymap_has _ _ _ _ _ Hr Hc) as (y' & l & Hg & Hl & _).
  destruct (draw_groups_facts _ _ _ _ _ _ _ _ _ H) as (_ & D2 & _).
  exact (proj1 (D2 _ _ _ Hg Hl)).
Qed.

Lemma draw_keys_requires_shift_mapping_witness :
  exists xm ym vk,
    Painter.draw_keys [("home", [("a", (0, 0)); ("s", (1, 0))])] [("a", "A"); ("s", "S")]
      = Ok (xm, ym, vk) /\ dict_get (py_lower "a") [("a", "A"); ("s", "S")] <> None.
Proof.
  do 3 eexists. split; [reflexivity|].
  eapply (draw_keys_requires_shift_mapping [("home", [("a", (0, 0)); ("s", (1, 0))])]
            [("a", "A"); ("s", "S")]).
  - reflexivity.
  - left; reflexivity.
  - left; reflexivity.
Defined.



(** ** The heat map update ([update_heatmap]) and the event loop *)

Lemma fold_left_Rmin_nonneg (ds : list R) : forall d,
  (0 <= d)%R -> (forall x, In x ds -> 0 <= x)%R -> (0 <= fold_left Rmin ds d)%R.
Proof.
  induction ds as [|x ds IH]; intros d Hd Hx; cbn; [exact Hd|].
  apply IH; [apply Rmin_glb; [exact Hd|apply Hx; left; reflexivity]|].
  intros y Hy; apply Hx; right; exact Hy.
Qed.

Lemma home_distance_nonneg home p d :
  Painter.home_distance home p = Ok d -> (0 <= d)%R.
Proof.
  unfold Painter.home_distance.
  set (f := fun h : Q * Q => sqrt (Q2R ((fst p - fst h) * (fst p - fst h)
                                        + (snd p - snd h) * (snd p - snd h)))).
  assert (Hf : forall x, In x (map f (map snd home)) -> (0 <= x)%R).
  { intros x Hx. apply in_map_iff in Hx as (h & <- & _). apply sqrt_pos. }
  destruct (map f (map snd home)) as [|d0 ds]; [discriminate|].
  intros H; injection H as <-.
  apply fold_left_Rmin_nonneg; [apply Hf; left; reflexivity|].
  intros x Hx; apply Hf; right; exact Hx.
Qed.

Lemma shift_loop_count vk xm sm c pts p pts' :
  Painter.shift_loop vk xm sm c pts = Ok (Some p, pts') ->
  length pts' = (length pts + 240)%nat.
Proof.
  induction sm as [|[l u] sm IH]; cbn; [discriminate|].
  destruct (String.eqb u c); [|exact IH].
  destruct (Painter.find_nested_key vk l) as [q|]; [|exact IH].
  destruct (Painter.find_nested_key vk _) as [sq|]; [|discriminate].
  intros H; injection H as _ <-.
  rewrite !update_points_length; lia.
Qed.

Lemma char_step_facts P pts d ch pts' d' :
  Painter.char_step P (pts, d) ch = Ok (pts', d') ->
  (d <= d')%R /\ (length pts' = length pts + 120 \/ length pts' = length pts + 240)%nat.
Proof.
  unfold Painter.char_step.
  destruct (Painter.find_nested_key _ _) as [p|] eqn:Hf.
  - cbn [bind]. destruct (Painter.home_distance _ _) as [e|] eqn:Hd; cbn [bind]; [|discriminate].
    intros H; injection H as <- <-.
    pose proof (home_distance_nonneg _ _ _ Hd).
    split; [lra|left; apply update_points_length].
  - destruct (Painter.shift_loop _ _ _ _ _) as [[o q]|] eqn:Hs; cbn [bind]; [|discriminate].
    destruct o as [p|]; [|discriminate].
    destruct (Painter.home_distance _ _) as [e|] eqn:Hd; cbn [bind]; [|discriminate].
    intros H; injection H as <- <-.
    pose proof (home_distance_nonneg _ _ _ Hd).
    split; [lra|right; exact (shift_loop_count _ _ _ _ _ _ _ Hs)].
Qed.

Lemma chars_loop_facts P cs : forall pts d pts' d',
  Painter.chars_loop P (pts, d) cs = Ok (pts', d') ->
  (d <= d')%R /\
  exists k, (length cs <= k <= 2 * length cs)%nat /\ length pts' = (length pts + 120 * k)%nat.
Proof.
  induction cs as [|ch cs IH]; intros pts d pts' d' H; cbn [Painter.chars_loop] in H.
  - injection H as <- <-. split; [lra|]. exists 0%nat; cbn; lia.
  - destruct (Painter.char_step P (pts, d) ch) as [[q e]|] eqn:Hc; cbn [bind] in H; [|discriminate H].
    destruct (char_step_facts _ _ _ _ _ _ Hc) as [H1 H2].
    destruct (IH _ _ _ _ H) as [H3 (k & Hk & Hl)].
    split; [lra|]. cbn [length].
    destruct H2 as [H2|H2]; [exists (S k)|exists (S (S k))]; lia.
Qed.

(** The distance returned by [update_heatmap] is never negative: it is a
    sum of minima of Euclidean distances. *)
Theorem update_heatmap_travelled_nonneg P chars u :
  Painter.update_heatmap P chars = Ok u -> (0 <= Painter.travelled u)%R.
Proof.
  unfold Painter.update_heatmap.
  destruct (Painter.chars_loop _ _ _) as [[pts d]|] eqn:Hl; cbn [bind]; [|discriminate].
  destruct (Painter.kde_window pts); [discriminate|].
  intros H; injection H as <-; cbn [Painter.travelled].
  exact (proj1 (chars_loop_facts _ _ _ _ _ _ Hl)).
Qed.

Lemma update_heatmap_travelled_nonneg_witness :
  exists u, Painter.update_heatmap painter_shifts "a" = Ok u /\ (0 <= Painter.travelled u)%R.
Proof.
  assert (Hok : is_ok (Painter.update_heatmap painter_shifts "a") = true) by reflexivity.
  destruct (Painter.update_heatmap painter_shifts "a") as [u|e] eqn:E; [|discriminate Hok].
  exists u; split; [reflexivity|].
  exact (update_heatmap_travelled_nonneg painter_shifts "a" u E).
Defined.



(** The event loop of [main] ignores everything typed after the first
    carriage return. *)
Theorem main_loop_stops_at_carriage_return P total cs rest :
  main_loop P total (cs ++ chr 13 :: rest) = main_loop P total cs.
Proof.
  revert P total. induction cs as [|c cs IH]; intros P total; cbn.
  - rewrite ?String.eqb_refl; reflexivity.
  - destruct (String.eqb c (chr 13)); [reflexivity|].
    destruct (Painter.update_heatmap P c) as [u|e]; cbn [bind]; [apply IH|reflexivity].
Qed.

(** The total distance accumulated by the event loop of [main] never
    decreases. *)
Theorem main_loop_total_grows P total cs P' total' :
  main_loop P total cs = Ok (P', total') -> (total <= total')%R.
Proof.
  revert P total. induction cs as [|c cs IH]; intros P total; cbn.
  - intros H; injection H as _ <-; lra.
  - destruct (String.eqb c (chr 13)); [intros H; injection H as _ <-; lra|].
    destruct (Painter.update_heatmap P c) as [u|e] eqn:Hu; cbn [bind]; [|discriminate].
    intros H. specialize (IH _ _ H).
    assert (Ht : (0 <= Painter.travelled u)%R).
    { revert Hu. unfold Painter.update_heatmap.
      destruct (Painter.chars_loop _ _ _) as [[pts d]|] eqn:Hl; cbn [bind]; [|discriminate].
      destruct (Painter.kde_window pts); [discriminate|].
      intros Hu; injection Hu as <-; cbn [Painter.travelled].
      exact (proj1 (chars_loop_facts _ _ _ _ _ _ Hl)). }
    lra.
Qed.

Lemma main_loop_total_grows_witness :
  exists P' t', main_loop painter_shifts 0%R ["a"; "A"] = Ok (P', t') /\ (0 <= t')%R.
Proof.
  assert (Hok : is_ok (main_loop painter_shifts 0%R ["a"; "A"]) = true) by reflexivity.
  destruct (main_loop painter_shifts 0%R ["a"; "A"]) as [[P' t']|e] eqn:E; [|discriminate Hok].
  exists P', t'; split; [reflexivity|].
  exact (main_loop_total_grows painter_shifts 0%R ["a"; "A"] P' t' E).
Defined.

(** ** The distance to the home row *)

Lemma fold_left_Rmin_le (ds : list R) : forall d0,
  (fold_left Rmin ds d0 <= d0)%R /\ (forall x, In x ds -> fold_left Rmin ds d0 <= x)%R.
Proof.
  induction ds as [|x ds IH]; intros d0; cbn; [split; [lra|intros y []]|].
  destruct (IH (Rmin d0 x)) as [H1 H2].
  pose proof (Rmin_l d0 x); pose proof (Rmin_r d0 x).
  split; [lra|]. intros y [<-|Hy]; [lra|exact (H2 y Hy)].
Qed.

Lemma fold_left_Rmin_mem (ds : list R) : forall d0,
  fold_left Rmin ds d0 = d0 \/ In (fold_left Rmin ds d0) ds.
Proof.
  induction ds as [|x ds IH]; intros d0; cbn; [left; reflexivity|].
  destruct (IH (Rmin d0 x)) as [H|H]; [|right; right; exact H].
  rewrite H. unfold Rmin; destruct (Rle_dec d0 x); [left|right; left]; reflexivity.
Qed.

(** The distance [update_heatmap] adds for a key at [p] is the least of
    the Euclidean distances from [p] to the home-row positions: it is at
    most each of them and equal to one of them. *)
Theorem home_distance_is_min home p d :
  Painter.home_distance home p = Ok d ->
  (forall h, In h (map snd home) -> (d <= euclid p h)%R) /\
  exists h, In h (map snd home) /\ d = euclid p h.
Proof.
  unfold Painter.home_distance.
  change (map (fun h => sqrt (Q2R ((fst p - fst h) * (fst p - fst h)
                                   + (snd p - snd h) * (snd p - snd h)))) (map snd home))
    with (map (euclid p) (map snd home)).
  destruct (map (euclid p) (map snd home)) as [|d0 ds] eqn:E; [discriminate|].
  intros H; injection H as <-.
  destruct (fold_left_Rmin_le ds d0) as [L1 L2].
  split.
  - intros h Hh. apply (in_map (euclid p)) in Hh. rewrite E in Hh.
    destruct Hh as [<-|Hh]; [exact L1|exact (L2 _ Hh)].
  - assert (Hm : In (fold_left Rmin ds d0) (map (euclid p) (map snd home))).
    { rewrite E. destruct (fold_left_Rmin_mem ds d0) as [M|M]; [left; symmetry; exact M|right; exact M]. }
    apply in_map_iff in Hm as (h & Hh & Hin). exists h; split; [exact Hin|symmetry; exact Hh].
Qed.

Lemma home_distance_is_min_witness :
  exists d, Painter.home_distance [("a", (0, 0)); ("s", (1, 0))] (13 # 10, 0) = Ok d /\
    (d <= euclid (13 # 10, 0%Q) (1%Q, 0%Q))%R.
Proof.
  assert (Hok : is_ok (Painter.home_distance [("a", (0, 0)); ("s", (1, 0))] (13 # 10, 0)) = true)
    by reflexivity.
  destruct (Painter.home_distance [("a", (0, 0)); ("s", (1, 0))] (13 # 10, 0)) as [d|e] eqn:E;
    [|discriminate Hok].
  exists d; split; [reflexivity|].
  apply (proj1 (home_distance_is_min _ _ _ E)). right; left; reflexivity.
Defined.

(** ** Keys of the parsed maps *)

Lemma special_key_lower c : str_in c Parser.special_keys = true -> py_lower c = c.
Proof.
  unfold str_in. intros H; apply existsb_exists in H as (x & Hx & E).
  apply String.eqb_eq in E; subst x.
  repeat (destruct Hx as [<-|Hx]; [reflexivity|]); destruct Hx.
Qed.

Lemma dict_update_keys_in {V} x (d e : list (string * V)) :
  In x (map fst (dict_update d e)) <-> In x (map fst d) \/ In x (map fst e).
Proof.
  unfold dict_update. revert d.
  induction e as [|[k v] e IH]; intros d; cbn; [split; intros H; intuition|].
  rewrite IH, dict_set_keys_in. split; intros H; intuition congruence.
Qed.

Lemma generate_keylist_keys cc sm k lk cc' sm' :
  Parser.generate_keylist cc sm k = Ok (lk, cc', sm') ->
  (exists c, key_lower k = Some c /\ (lk = c \/ lk = py_lower c)) /\
  In lk (map fst sm') /\ (forall x, In x (map fst sm) -> In x (map fst sm')).
Proof.
  unfold Parser.generate_keylist.
  destruct (key_lower k) as [c|]; [|discriminate].
  destruct (dict_get (py_lower c) cc) as [n|]; [|discriminate].
  destruct (1 <? n)%nat; [discriminate|].
  assert (Keep : forall y v x, In x (map fst sm) -> In x (map fst (dict_set y v sm)))
    by (intros y v x Hx; apply dict_set_keys_in; right; exact Hx).
  destruct (key_upper k) as [u|].
  - destruct (str_contains _ _); [discriminate|].
    destruct (str_in c Parser.special_keys) eqn:Sp; intros H; injection H as <- _ <-;
      (split; [exists c; split; [reflexivity|left; reflexivity]|]);
      (split; [apply dict_set_keys_in; left|intros x Hx; apply Keep, Hx]).
    + symmetry; apply special_key_lower, Sp.
    + reflexivity.
  - destruct (str_contains _ _); [discriminate|].
    destruct (dict_get _ Parser.default_shift_mapping); [|discriminate].
    intros H; injection H as <- _ <-.
    split; [exists c; split; [reflexivity|right; reflexivity]|].
    split; [apply dict_set_keys_in; left; reflexivity|intros x Hx; apply Keep, Hx].
Qed.

Lemma keys_loop_keys cc sm rm ks cc' sm' rm' :
  Parser.keys_loop cc sm rm ks = Ok (cc', sm', rm') ->
  (forall x, In x (map fst sm) -> In x (map fst sm')) /\
  (forall x, In x (map fst rm) -> In x (map fst rm')) /\
  ((forall x, In x (map fst rm) -> In x (map fst sm)) ->
   forall x, In x (map fst rm') -> In x (map fst sm')) /\
  (forall k c, In k ks -> key_lower k = Some c ->
     In c (map fst rm') \/ In (py_lower c) (map fst rm')).
Proof.
  revert cc sm rm. induction ks as [|k ks IH]; intros cc sm rm H.
  - cbn in H; injection H as <- <- <-.
    split; [auto|split; [auto|split; [auto|intros k c []]]].
  - cbn [Parser.keys_loop] in H.
    destruct (Parser.generate_keylist cc sm k) as [[[lk cc1] sm1]|e] eqn:G; cbn [bind] in H;
      [|discriminate H].
    destruct (Parser.key_position k) as [p|e]; cbn [bind] in H; [|discriminate H].
    destruct (generate_keylist_keys _ _ _ _ _ _ G) as ((c0 & Hc0 & Hlk) & G2 & G3).
    destruct (IH _ _ _ H) as (I1 & I2 & I3 & I4).
    split; [intros x Hx; apply I1, G3, Hx|].
    split; [intros x Hx; apply I2, dict_set_keys_in; right; exact Hx|].
    split.
    + intros Hrs. apply I3. intros x Hx. apply dict_set_keys_in in Hx as [->|Hx];
        [exact G2|apply G3, Hrs, Hx].
    + intros k' c [<-|Hk] Hc; [|exact (I4 _ _ Hk Hc)].
      rewrite Hc in Hc0; injection Hc0 as <-.
      assert (Hin : In lk (map fst (dict_set lk p rm))) by (apply dict_set_keys_in; left; reflexivity).
      destruct Hlk as [<-|<-]; [left|right]; apply I2, Hin.
Qed.

Lemma dict_get_in {V} k (v : V) d : dict_get k d = Some v -> In (k, v) d.
Proof.
  induction d as [|[k' v'] d IH]; cbn; [discriminate|].
  destruct (String.eqb k k') eqn:E; [|intros H; right; exact (IH H)].
  apply String.eqb_eq in E; subst k'. intros H; injection H as <-; left; reflexivity.
Qed.

Lemma rows_loop_keys st rows st' :
  Parser.rows_loop st rows = Ok st' ->
  (forall x, In x (map fst (Parser.home_row st)) -> In x (map fst (Parser.home_row st'))) /\
  (keymap_has_shifts st -> keymap_has_shifts st') /\
  (forall r rid k c, In r rows -> row_id r = Some rid -> String.eqb (py_lower rid) "home" = true ->
     In k (row_keys r) -> key_lower k = Some c ->
     In c (map fst (Parser.home_row st')) \/ In (py_lower c) (map fst (Parser.home_row st'))).
Proof.
  revert st. induction rows as [|r rows IH]; intros st H.
  - cbn in H; injection H as <-. split; [auto|split; [auto|intros r rid k c []]].
  - cbn [Parser.rows_loop] in H.
    destruct (Parser.keys_loop _ _ [] _) as [[[cc sm] rm]|e] eqn:K; cbn [bind] in H;
      [|discriminate H].
    destruct (row_id r) as [rid|] eqn:R; [|discriminate H].
    destruct (keys_loop_keys _ _ _ _ _ _ _ K) as (K1 & _ & K3 & K4).
    destruct (IH _ H) as (I1 & I2 & I3). cbn [Parser.home_row] in I1.
    assert (Hh : forall x, In x (map fst (Parser.home_row st)) ->
                 In x (map fst (if String.eqb (py_lower rid) "home"
                                then dict_update (Parser.home_row st) rm else Parser.home_row st))).
    { intros x Hx; destruct (String.eqb _ _); [apply dict_update_keys_in; left|]; exact Hx. }
    split; [intros x Hx; apply I1, Hh, Hx|].
    split.
    + intros Hs. apply I2. intros rid' row' Hin x Hx. cbn [Parser.shift_mapping].
      cbn [Parser.keymap] in Hin.
      assert (Hrm : forall x, In x (map fst rm) -> In x (map fst sm))
        by (apply K3; intros y []).
      destruct (dict_get rid (Parser.keymap st)) as [old|] eqn:Ho;
        apply dict_set_in in Hin as [E|Hin].
      * injection E as -> ->. apply dict_update_keys_in in Hx as [Hx|Hx]; [|apply Hrm, Hx].
        apply K1, (Hs rid old (dict_get_in _ _ _ Ho)), Hx.
      * apply K1, (Hs _ _ Hin), Hx.
      * injection E as -> ->. apply Hrm, Hx.
      * apply K1, (Hs _ _ Hin), Hx.
    + intros r' rid' k c [<-|Hr] Hid Hhome Hk Hc; [|exact (I3 _ _ _ _ Hr Hid Hhome Hk Hc)].
      rewrite R in Hid; injection Hid as <-.
      destruct (K4 _ _ Hk Hc) as [Hx|Hx]; [left|right]; apply I1; cbn;
        rewrite Hhome; apply dict_update_keys_in; right; exact Hx.
Qed.

(** Every key declared in a row whose id lowercases to "home" ends up in
    the home row, under its [lower] as written or lowercased. *)
Theorem parse_home_row_complete kbd st :
  Parser.parse kbd = Ok st ->
  forall r rid k c, In r kbd -> row_id r = Some rid -> String.eqb (py_lower rid) "home" = true ->
    In k (row_keys r) -> key_lower k = Some c ->
    In c (map fst (Parser.home_row st)) \/ In (py_lower c) (map fst (Parser.home_row st)).
Proof.
  unfold Parser.parse.
  destruct (Parser.rows_loop _ kbd) as [st0|e] eqn:R; cbn [bind]; [|discriminate].
  destruct (Parser.home_row st0) eqn:E; [discriminate|].
  intros Hs; injection Hs as <-.
  exact (proj2 (proj2 (rows_loop_keys _ _ _ R))).
Qed.

Lemma parse_home_row_complete_witness :
  exists st, Parser.parse layout_shifts = Ok st /\
    (In "s" (map fst (Parser.home_row st)) \/ In (py_lower "s") (map fst (Parser.home_row st))).
Proof.
  assert (Hok : is_ok (Parser.parse layout_shifts) = true) by reflexivity.
  destruct (Parser.parse layout_shifts) as [st|e] eqn:E; [|discriminate Hok].
  exists st; split; [reflexivity|].
  refine (parse_home_row_complete layout_shifts st E
           (mkRow (Some "home") [mkKey (Some "a") (Some "A") (at_xy 0 0); mkKey (Some "s") None (at_xy 1 0)])
           "home" (mkKey (Some "s") None (at_xy 1 0)) "s" _ _ _ _ _).
  all: first [reflexivity|left; reflexivity|right; left; reflexivity].
Defined.

(** Every key of the parsed keymap has an entry under the same name in the
    parsed shift mapping: the name stored in the row is [lower] as written
    when an [upper] is given (and the shift entry is then made under
    [lower] as written, or lowercased for a special key, which is already
    lowercase), and [lower] lowercased otherwise (as is its shift entry). *)
Lemma parse_keymap_has_shifts kbd st :
  Parser.parse kbd = Ok st ->
  forall rid row c, In (rid, row) (Parser.keymap st) -> In c (map fst row) ->
    In c (map fst (Parser.shift_mapping st)).
Proof.
  unfold Parser.parse.
  destruct (Parser.rows_loop _ kbd) as [st0|e] eqn:R; cbn [bind]; [|discriminate].
  destruct (Parser.home_row st0) eqn:E; [discriminate|].
  intros Hs; injection Hs as <-.
  intros rid row c Hin Hc.
  refine (proj1 (proj2 (rows_loop_keys _ _ _ R)) _ rid row Hin c Hc).
  intros rid' row' [].
Qed.

(** ** How [__draw_keys] can fail *)

Lemma group_add_from y e g y' l c x :
  In (y', l) (Painter.group_add y e g) -> In (c, x) l ->
  (c, x) = e \/ exists y'' l', In (y'', l') g /\ In (c, x) l'.
Proof.
  induction g as [|[y0 l0] g IH]; cbn.
  - intros [E|[]] Hc; injection E as _ <-. destruct Hc as [<-|[]]; left; reflexivity.
  - destruct (Qeq_bool y y0).
    + intros [E|Hin] Hc.
      * injection E as _ <-. apply in_app_or in Hc as [Hc|[<-|[]]]; [|left; reflexivity].
        right; exists y0, l0; split; [left; reflexivity|exact Hc].
      * right; exists y', l; split; [right; exact Hin|exact Hc].
    + intros [E|Hin] Hc.
      * injection E as -> ->. right; exists y', l; split; [left; reflexivity|exact Hc].
      * destruct (IH Hin Hc) as [H|(y'' & l' & H1 & H2)]; [left; exact H|].
        right; exists y'', l'; split; [right; exact H1|exact H2].
Qed.

Lemma group_add_nonempty y e g :
  (forall y' l, In (y', l) g -> l <> []) -> forall y' l, In (y', l) (Painter.group_add y e g) -> l <> [].
Proof.
  induction g as [|[y0 l0] g IH]; cbn; intros Hg y' l.
  - intros [E|[]]; injection E as _ <-; discriminate.
  - destruct (Qeq_bool y y0).
    + intros [E|Hin]; [injection E as _ <-; destruct l0; discriminate|exact (Hg _ _ (or_intror Hin))].
    + intros [E|Hin]; [exact (Hg _ _ (or_introl E))|].
      exact (IH (fun y'' l'' H => Hg _ _ (or_intror H)) _ _ Hin).
Qed.

Lemma ordered_keymap_from km :
  (forall y l, In (y, l) (Painter.ordered_keymap km) -> l <> []) /\
  (forall y l c x, In (y, l) (Painter.ordered_keymap km) -> In (c, x) l -> km_has km c x).
Proof.
  unfold Painter.ordered_keymap.
  set (Inv := fun (pre : list (string * list (string * (Q * Q)))) (g : list (Q * list (string * Q))) =>
          (forall y l, In (y, l) g -> l <> []) /\
          (forall y l c x, In (y, l) g -> In (c, x) l -> km_has pre c x)).
  assert (Hmono : forall pre pre' g, (forall c x, km_has pre c x -> km_has pre' c x) ->
                  Inv pre g -> Inv pre' g).
  { intros pre pre' g Hp [H1 H2]; split; [exact H1|intros y l c x Hy Hc; apply Hp, (H2 _ _ _ _ Hy Hc)]. }
  assert (Hrow : forall rid row g pre, In (rid, row) pre -> Inv pre g ->
     forall row', incl row' row ->
     Inv pre (fold_left (fun g ce => Painter.group_add (snd (snd ce)) (fst ce, fst (snd ce)) g) row' g)).
  { intros rid row g pre Hr Hi row'. revert g Hi.
    induction row' as [|ce row' IH]; intros g Hi Hincl; cbn; [exact Hi|].
    apply IH; [|intros z Hz; apply Hincl; right; exact Hz].
    destruct Hi as [H1 H2]; split.
    - apply group_add_nonempty, H1.
    - intros y l c x Hy Hc. destruct (group_add_from _ _ _ _ _ _ _ Hy Hc) as [E|(y'' & l' & G1 & G2)].
      + exists rid, row, (snd ce). destruct ce as [c' p']; cbn in E; injection E as -> ->.
        split; [exact Hr|split; [apply Hincl; left; reflexivity|reflexivity]].
      + exact (H2 _ _ _ _ G1 G2). }
  assert (G : forall rows pre g, Inv pre g ->
     Inv (pre ++ rows) (fold_left (fun g row =>
          fold_left (fun g ce => Painter.group_add (snd (snd ce)) (fst ce, fst (snd ce)) g) (snd row) g)
          rows g)).
  { induction rows as [|[rid row] rows IH]; intros pre g Hi; cbn; [rewrite app_nil_r; exact Hi|].
    replace (pre ++ (rid, row) :: rows) with ((pre ++ [(rid, row)]) ++ rows)
      by (rewrite <- app_assoc; reflexivity).
    apply IH. apply (Hrow rid row); [apply in_or_app; right; left; reflexivity| |apply incl_refl].
    apply (Hmono pre); [|exact Hi].
    intros c x (r0 & w0 & p0 & A & B & C). exists r0, w0, p0.
    split; [apply in_or_app; left; exact A|auto]. }
  apply (G km [] []). split; [intros y l []|intros y l c x []].
Qed.

Lemma walk_row_error sm y n lst : forall count prev_x xsize xmax ymax vrow xdata e,
  Painter.walk_row sm y n count prev_x xsize xmax ymax vrow xdata lst = Err e ->
  e = KeyError /\ exists c x, In (c, x) lst /\ dict_get (py_lower c) sm = None.
Proof.
  induction lst as [|[ch x] t IH]; intros count prev_x xsize xmax ymax vrow xdata e H;
    cbn [Painter.walk_row] in H; [discriminate H|].
  destruct (dict_get (py_lower ch) sm) as [s|] eqn:Hs.
  - destruct (IH _ _ _ _ _ _ _ _ H) as [-> (c & x' & H1 & H2)].
    split; [reflexivity|exists c, x'; split; [right; exact H1|exact H2]].
  - injection H as <-. split; [reflexivity|exists ch, x; split; [left; reflexivity|exact Hs]].
Qed.

Lemma draw_groups_error sm groups : forall xsize xmax ymax vk e,
  (forall y l, In (y, l) groups -> l <> []) ->
  Painter.draw_groups sm xsize xmax ymax vk groups = Err e ->
  e = KeyError /\ exists y l c x, In (y, l) groups /\ In (c, x) l /\ dict_get (py_lower c) sm = None.
Proof.
  induction groups as [|[y lst] gs IH]; intros xsize xmax ymax vk e Hne H;
    cbn [Painter.draw_groups] in H; [discriminate H|].
  pose proof (sort_by_x_perm lst) as Hperm.
  destruct (Painter.sort_by_x lst) as [|[c0 x0] l0] eqn:S.
  - exfalso. apply Permutation_sym, Permutation_nil in Hperm. exact (Hne y lst (or_introl eq_refl) Hperm).
  - destruct (Painter.walk_row _ _ _ _ _ _ _ _ _ _ _) as [[[[[xs1 xm1] ym1] vrow] xd]|e'] eqn:W;
      cbn [bind] in H.
    + destruct (IH _ _ _ _ _ (fun y' l H => Hne y' l (or_intror H)) H)
        as [-> (y' & l & c & x & H1 & H2 & H3)].
      split; [reflexivity|exists y', l, c, x; split; [right; exact H1|auto]].
    + injection H as <-.
      destruct (walk_row_error _ _ _ _ _ _ _ _ _ _ _ _ W) as [-> (c & x & H1 & H2)].
      apply (Permutation_in _ (Permutation_sym Hperm)) in H1.
      split; [reflexivity|exists y, lst, c, x; split; [left; reflexivity|auto]].
Qed.

(** [__draw_keys] never fails on an empty group ([lst[0]]): it fails only
    with [KeyError], and only on a key of the keymap with no shift mapping
    under its lowercase form. *)
Theorem draw_keys_fails_only_on_missing_shift km sm e :
  Painter.draw_keys km sm = Err e ->
  e = KeyError /\
  exists rid row c p, In (rid, row) km /\ In (c, p) row /\ dict_get (py_lower c) sm = None.
Proof.
  intros H. destruct (ordered_keymap_from km) as [O1 O2].
  destruct (draw_groups_error _ _ _ _ _ _ _ O1 H) as [-> (y & l & c & x & H1 & H2 & H3)].
  split; [reflexivity|].
  destruct (O2 _ _ _ _ H1 H2) as (rid & row & p & A & B & _).
  exists rid, row, c, p; auto.
Qed.

Lemma draw_keys_fails_only_on_missing_shift_witness :
  Painter.draw_keys [("home", [("a", (0, 0)); ("s", (1, 0))])] [("a", "A")] = Err KeyError /\
  In ("s", (1, 0)) [("a", (0, 0)); ("s", (1, 0))].
Proof.
  split; [reflexivity|].
  destruct (draw_keys_fails_only_on_missing_shift [("home", [("a", (0, 0)); ("s", (1, 0))])]
              [("a", "A")] KeyError eq_refl) as [_ (rid & row & c & p & A & B & C)].
  destruct A as [A|[]]. injection A as <- <-.
  destruct B as [B|[B|[]]]; injection B as <- <-; [discriminate C|right; left; reflexivity].
Defined.

(** ** The event loop keeps the keyboard *)

(** The event loop of [main] never changes the drawn keyboard, the shift
    mapping or the home row; it only appends to the stored points. *)
Theorem main_loop_keeps_keyboard P total cs P' total' :
  main_loop P total cs = Ok (P', total') ->
  Painter.visual_keymap P' = Painter.visual_keymap P /\ Painter.xmax P' = Painter.xmax P /\
  Painter.ymax P' = Painter.ymax P /\ Painter.p_shift_mapping P' = Painter.p_shift_mapping P /\
  Painter.p_home_row P' = Painter.p_home_row P /\ extends (Painter.points P) (Painter.points P').
Proof.
  revert P total. induction cs as [|c cs IH]; intros P total; cbn.
  - intros H; injection H as <- _. repeat split; try reflexivity.
    exists []; symmetry; apply app_nil_r.
  - destruct (String.eqb c (chr 13)).
    { intros H; injection H as <- _. repeat split; try reflexivity.
      exists []; symmetry; apply app_nil_r. }
    destruct (Painter.update_heatmap P c) as [u|e] eqn:Hu; cbn [bind]; [|discriminate].
    intros H. destruct (IH _ _ H) as (E1 & E2 & E3 & E4 & E5 & E6).
    revert Hu. unfold Painter.update_heatmap.
    destruct (Painter.chars_loop _ _ _) as [[pts d]|] eqn:Hl; cbn [bind]; [|discriminate].
    destruct (Painter.kde_window pts); [discriminate|].
    intros Hu; injection Hu as <-. cbn in E1, E2, E3, E4, E5, E6.
    repeat split; try assumption.
    eapply extends_trans; [eapply chars_loop_extends; exact Hl|exact E6].
Qed.

Lemma main_loop_keeps_keyboard_witness :
  exists P' t', main_loop painter_shifts 0%R ["a"; "A"] = Ok (P', t') /\
    Painter.visual_keymap P' = Painter.visual_keymap painter_shifts.
Proof.
  assert (Hok : is_ok (main_loop painter_shifts 0%R ["a"; "A"]) = true) by reflexivity.
  destruct (main_loop painter_shifts 0%R ["a"; "A"]) as [[P' t']|e] eqn:E; [|discriminate Hok].
  exists P', t'; split; [reflexivity|].
  exact (proj1 (main_loop_keeps_keyboard painter_shifts 0%R ["a"; "A"] P' t' E)).
Defined.

(** ** A parsed layout the painter cannot draw *)

Lemma in_keys_dict_get {V} (c : string) (d : list (string * V)) :
  In c (map fst d) -> dict_get c d <> None.
Proof.
  induction d as [|[k v] d IH]; cbn; [intros []|].
  intros [<-|Hin]; [rewrite String.eqb_refl; discriminate|].
  destruct (String.eqb c k); [discriminate|exact (IH Hin)].
Qed.

(** The parser files a key declared with an [upper] under [lower] as
    written, shift entry included, while [__draw_keys] looks the shift
    mapping up under [char.lower()].  On a layout that parses, drawing can
    only fail with [KeyError], and only on a key whose stored name is not
    already lowercase and whose lowercase form has no shift entry. *)
Theorem parsed_layout_draw_fails_only_on_uppercase_name kbd st e :
  Parser.parse kbd = Ok st ->
  Painter.draw_keys (Parser.keymap st) (Parser.shift_mapping st) = Err e ->
  e = KeyError /\
  exists rid row c p, In (rid, row) (Parser.keymap st) /\ In (c, p) row /\
    py_lower c <> c /\ dict_get (py_lower c) (Parser.shift_mapping st) = None.
Proof.
  intros Hp H. destruct (ordered_keymap_from (Parser.keymap st)) as [O1 O2].
  destruct (draw_groups_error _ _ _ _ _ _ _ O1 H) as [-> (y & l & c & x & H1 & H2 & H3)].
  split; [reflexivity|].
  destruct (O2 _ _ _ _ H1 H2) as (rid & row & p & A & B & _).
  exists rid, row, c, p. split; [exact A|]. split; [exact B|]. split; [|exact H3].
  intros Ec. rewrite Ec in H3. apply (in_keys_dict_get c (Parser.shift_mapping st)); [|exact H3].
  apply (parse_keymap_has_shifts kbd st Hp rid row c A).
  apply in_map_iff; exists (c, p); auto.
Qed.

Lemma parsed_layout_draw_fails_only_on_uppercase_name_witness :
  exists st, Parser.parse [mkRow (Some "home") [mkKey (Some "Q") (Some "X") (at_xy 0 0)]] = Ok st /\
    Painter.draw_keys (Parser.keymap st) (Parser.shift_mapping st) = Err KeyError /\
    exists rid row c p, In (rid, row) (Parser.keymap st) /\ In (c, p) row /\
      py_lower c <> c /\ dict_get (py_lower c) (Parser.shift_mapping st) = None.
Proof.
  assert (Hok : is_ok (Parser.parse [mkRow (Some "home") [mkKey (Some "Q") (Some "X") (at_xy 0 0)]])
                = true) by reflexivity.
  destruct (Parser.parse [mkRow (Some "home") [mkKey (Some "Q") (Some "X") (at_xy 0 0)]])
    as [st|e] eqn:E; [|discriminate Hok].
  exists st. split; [reflexivity|].
  assert (Hd : Painter.draw_keys (Parser.keymap st) (Parser.shift_mapping st) = Err KeyError).
  { revert E. vm_compute. intros E. injection E as <-. reflexivity. }
  split; [exact Hd|].
  exact (proj2 (parsed_layout_draw_fails_only_on_uppercase_name _ st KeyError E Hd)).
Defined.
